(** * Dependency-resolution core of service-topo-sort

    Shallow embedding of the Go sources:
    - [topoSort] of src/topological-sort.go (graph [map[string][]string]);
    - [TopoSortDependsOn.topoSort] of src/topological-sort/topological-sort.go
      (graph [map[string]DependsOn]);
    - [Find], [Union], [InitialiseUnionFind] of src/union-find/union-find.go;
    - the bucketizer loop of src/grouped-topo-sort/deployment-order.go;
    - [resolve] (the body of [main]) and [addTransitiveDeps] of the local
      deployment resolver (src/unnamed/part_000).

    Go maps are modelled as follows.  A [map[string]bool] is a total function
    [string -> bool] (reading a missing key yields [false], deleting a key is
    the same as storing [false] for reads).  A [map[string][]string] read as an
    adjacency list is an association list whose order is the (unspecified) Go
    iteration order; reading a missing key yields the nil slice [[]].  Loops
    whose termination is not structural are given an explicit fuel argument,
    and lemmas below show that the fuel chosen by the model never runs out. *)

From Stdlib Require Import Ascii String List Bool Arith Lia Relations.
Import ListNotations.
Local Open Scope bool_scope.
Local Open Scope string_scope.
Local Open Scope list_scope.

(** ** Shared helpers *)

(** A Go [map[string]bool]; missing keys read as [false]. *)
Definition bmap := string -> bool.

Definition bmap_empty : bmap := fun _ => false.

(** [m[k] = b] *)
Definition bmap_set (m : bmap) (k : string) (b : bool) : bmap :=
  fun x => if String.eqb x k then b else m x.

(** A Go [map[string][]string] used as adjacency list. *)
Definition Graph := list (string * list string).

(** [graph[n]]: the dependency list of [n], or the nil slice. *)
Fixpoint lookup_deps (g : Graph) (n : string) : list string :=
  match g with
  | [] => []
  | (k, ds) :: g' => if String.eqb k n then ds else lookup_deps g' n
  end.

(** Every name of the graph: the adjacency-list keys and every name appearing
    in some dependency list. *)
Definition nodes (g : Graph) : list string := map fst g ++ concat (map snd g).

(** [u -> v]: [u] depends on [v]. *)
Definition edge (g : Graph) (u v : string) : Prop := In v (lookup_deps g u).

Definition reach_plus (g : Graph) : string -> string -> Prop := clos_trans string (edge g).

Definition acyclic (g : Graph) : Prop := forall x, ~ reach_plus g x x.

(** Position of the first occurrence of [x] in [l] ([length l] if absent). *)
Fixpoint index_of (x : string) (l : list string) : nat :=
  match l with
  | [] => 0
  | y :: l' => if String.eqb x y then 0 else S (index_of x l')
  end.

(** ** topoSort (src/topological-sort.go) *)

(** The local [state] struct of [topoSort]: a work-stack frame. *)
Record frame := mkFrame { node : string; expanded : bool }.

(** The Go slice [stack] has its top at the end; the model keeps the top at
    the head of the list. *)

(** [for _, dep := range deps { if !visited[dep] { stack = append(stack, state{dep, false}) } }] *)
Definition push_deps (visited : bmap) (deps : list string) (stack : list frame) : list frame :=
  fold_left (fun st dep => if visited dep then st else mkFrame dep false :: st) deps stack.

(** Outcome of one run of the inner [for len(stack) > 0] loop. *)
Inductive loop_out :=
| LoopDone (visited onPath : bmap) (result : list string)
| LoopCycle (n : string)
| LoopFuel.

(** The inner loop, one pop per unit of fuel. *)
Fixpoint dfs (g : Graph) (fuel : nat) (visited onPath : bmap) (result : list string)
    (stack : list frame) : loop_out :=
  match fuel with
  | O => LoopFuel
  | S fuel' =>
      match stack with
      | [] => LoopDone visited onPath result
      | top :: stack' =>
          if visited (node top) then dfs g fuel' visited onPath result stack'
          else if expanded top then
            dfs g fuel' (bmap_set visited (node top) true) (bmap_set onPath (node top) false)
                (result ++ [node top]) stack'
          else
            let stack'' := mkFrame (node top) true :: stack' in
            if onPath (node top) then LoopCycle (node top)
            else dfs g fuel' visited (bmap_set onPath (node top) true) result
                   (push_deps visited (lookup_deps g (node top)) stack'')
      end
  end.

(** Result of [topoSort]: [([]string, nil)], [(nil, cycle error at n)], or the
    model's fuel running out (shown impossible below). *)
Inductive TopoResult :=
| Sorted (l : list string)
| CycleAt (n : string)
| OutOfFuel.

(** The outer [for node := range graph] loop, over the keys in iteration order. *)
Fixpoint sort_from (g : Graph) (fuel : nat) (keys : list string) (visited onPath : bmap)
    (result : list string) : TopoResult :=
  match keys with
  | [] => Sorted result
  | k :: ks =>
      if visited k then sort_from g fuel ks visited onPath result
      else match dfs g fuel visited onPath result [mkFrame k false] with
           | LoopDone v o r => sort_from g fuel ks v o r
           | LoopCycle n => CycleAt n
           | LoopFuel => OutOfFuel
           end
  end.

(** Fuel given to every run of the inner loop: one more than the number of
    pushes it can perform. *)
Definition fuel_bound (g : Graph) : nat :=
  S (S (list_sum (map (fun n => S (length (lookup_deps g n))) (nodes g)))).

Definition topoSort (g : Graph) : TopoResult :=
  sort_from g (fuel_bound g) (map fst g) bmap_empty bmap_empty [].

(** ** topoSort over [map[string]DependsOn] (src/topological-sort/topological-sort.go) *)

Module TopoSortDependsOn.

(** [type DependsOn struct { DependsOn []string }] *)
Record DependsOn := mkDependsOn { dependsOn : list string }.

(** A Go [map[string]DependsOn], in iteration order. *)
Definition DGraph := list (string * DependsOn).

(** [graph[n]]: the entry of [n], or the zero struct (nil [DependsOn]). *)
Fixpoint lookup (g : DGraph) (n : string) : DependsOn :=
  match g with
  | [] => mkDependsOn []
  | (k, d) :: g' => if String.eqb k n then d else lookup g' n
  end.

Definition nodes (g : DGraph) : list string :=
  map fst g ++ concat (map (fun p => dependsOn (snd p)) g).

Fixpoint dfs (g : DGraph) (fuel : nat) (visited onPath : bmap) (result : list string)
    (stack : list frame) : loop_out :=
  match fuel with
  | O => LoopFuel
  | S fuel' =>
      match stack with
      | [] => LoopDone visited onPath result
      | top :: stack' =>
          if visited (node top) then dfs g fuel' visited onPath result stack'
          else if expanded top then
            dfs g fuel' (bmap_set visited (node top) true) (bmap_set onPath (node top) false)
                (result ++ [node top]) stack'
          else
            let stack'' := mkFrame (node top) true :: stack' in
            if onPath (node top) then LoopCycle (node top)
            else dfs g fuel' visited (bmap_set onPath (node top) true) result
                   (push_deps visited (dependsOn (lookup g (node top))) stack'')
      end
  end.

Fixpoint sort_from (g : DGraph) (fuel : nat) (keys : list string) (visited onPath : bmap)
    (result : list string) : TopoResult :=
  match keys with
  | [] => Sorted result
  | k :: ks =>
      if visited k then sort_from g fuel ks visited onPath result
      else match dfs g fuel visited onPath result [mkFrame k false] with
           | LoopDone v o r => sort_from g fuel ks v o r
           | LoopCycle n => CycleAt n
           | LoopFuel => OutOfFuel
           end
  end.

Definition fuel_bound (g : DGraph) : nat :=
  S (S (list_sum (map (fun n => S (length (dependsOn (lookup g n)))) (nodes g)))).

Definition topoSort (g : DGraph) : TopoResult :=
  sort_from g (fuel_bound g) (map fst g) bmap_empty bmap_empty [].

(** The [DependsOn]-wrapped counterpart of a [map[string][]string] graph,
    keeping the iteration order. *)
Definition wrap (g : Graph) : DGraph := map (fun p => (fst p, mkDependsOn (snd p))) g.

End TopoSortDependsOn.

(** ** Union-Find (src/union-find/union-find.go) *)

(** [uf.parent], a Go [map[string]string]; missing keys read as [""]. *)
Definition smap := string -> string.

Definition smap_set (m : smap) (k v : string) : smap :=
  fun x => if String.eqb x k then v else m x.

Definition InitialiseUnionFind (nodes : list string) : smap :=
  fold_left (fun parent n => smap_set parent n n) nodes (fun _ => "").

(** [Find] with path compression; [fuel] bounds the recursion depth and
    returns [None] only when exhausted.  Returns the root and the updated
    [parent] map. *)
Fixpoint Find (fuel : nat) (parent : smap) (x : string) : option (string * smap) :=
  match fuel with
  | O => None
  | S fuel' =>
      if negb (String.eqb (parent x) x) then
        match Find fuel' parent (parent x) with
        | None => None
        | Some (r, parent') =>
            let parent'' := smap_set parent' x r in Some (parent'' x, parent'')
        end
      else Some (parent x, parent)
  end.

Definition Union (fuel : nat) (parent : smap) (x y : string) : option smap :=
  match Find fuel parent x with
  | None => None
  | Some (rootX, p1) =>
      match Find fuel p1 y with
      | None => None
      | Some (rootY, p2) =>
          Some (if negb (String.eqb rootX rootY) then smap_set p2 rootY rootX else p2)
      end
  end.

(** A sequence of [Union] calls, in order. *)
Fixpoint Unions (fuel : nat) (parent : smap) (us : list (string * string)) : option smap :=
  match us with
  | [] => Some parent
  | (x, y) :: us' =>
      match Union fuel parent x y with
      | None => None
      | Some p => Unions fuel p us'
      end
  end.

(** Two names joined by a chain of performed unions. *)
Definition connected (us : list (string * string)) : string -> string -> Prop :=
  clos_refl_sym_trans string (fun a b => In (a, b) us).

(** ** Association lists for Go maps whose contents are iterated *)

Fixpoint amap_lookup {V : Type} (k : string) (m : list (string * V)) : option V :=
  match m with
  | [] => None
  | (k', v) :: m' => if String.eqb k' k then Some v else amap_lookup k m'
  end.

(** [m[k] = v]: overwrite in place, or add a new key at the end. *)
Fixpoint amap_insert {V : Type} (k : string) (v : V) (m : list (string * V)) : list (string * V) :=
  match m with
  | [] => [(k, v)]
  | (k', v') :: m' => if String.eqb k' k then (k, v) :: m' else (k', v') :: amap_insert k v m'
  end.

(** ** Bucketizer (src/grouped-topo-sort/deployment-order.go) *)

Module DeployDependency.
Record DeployDependency := mkDeployDependency {
  ServiceName : string; Repository : string; Manifest : string;
  DevLocal : string; DependsOn : list string; Branch : string }.
End DeployDependency.

(** One iteration of the bucketing loop: [root = union[serviceName]] (the
    zero value [""] when absent) and
    [finalDeploymentOrder[root] = append(finalDeploymentOrder[root], service)]. *)
Definition bucket_step (union : list (string * string))
    (final : list (string * list DeployDependency.DeployDependency))
    (service : DeployDependency.DeployDependency)
    : list (string * list DeployDependency.DeployDependency) :=
  let root := match amap_lookup (DeployDependency.ServiceName service) union with
              | Some r => r | None => "" end in
  let bucket := match amap_lookup root final with Some l => l | None => [] end in
  amap_insert root (bucket ++ [service]) final.

(** The loop building [finalDeploymentOrder] ([map[string][]DeployDependency])
    from the deployment order and the [union] map ([map[string]string]). *)
Definition finalDeploymentOrder (order : list DeployDependency.DeployDependency)
    (union : list (string * string)) : list (string * list DeployDependency.DeployDependency) :=
  fold_left (bucket_step union) order [].

(** ** Local deployment resolver (src/unnamed/part_000) *)

Module Override.
Record Override := mkOverride {
  ServiceName : string; Branch : string; ManifestPath : string;
  DevLocal : string; Skip : bool; ForceDeploy : bool }.
End Override.

Module LocalConfig.
Record LocalConfig := mkLocalConfig {
  ServiceName : string; DependencyOverrides : list Override.Override }.
End LocalConfig.

Module DeployableService.
Record DeployableService := mkDeployableService {
  ServiceName : string; Repository : string; Manifest : string; DevLocal : string;
  DependsOn : list string; Branch : string; OriginalIdx : nat }.
End DeployableService.

Module MasterManifest.
Record MasterManifest := mkMasterManifest {
  DeploymentOrder : list DeployableService.DeployableService;
  DependencyAdjacencyList : Graph }.
End MasterManifest.

(** [addTransitiveDeps(service, graph, set)]; [fuel] bounds the recursion
    depth, [None] only when exhausted. *)
Fixpoint addTransitiveDeps (fuel : nat) (service : string) (graph : Graph) (set : bmap)
    : option bmap :=
  match fuel with
  | O => None
  | S fuel' =>
      fold_left
        (fun (acc : option bmap) (dep : string) =>
           match acc with
           | None => None
           | Some st =>
               if st dep then Some st
               else addTransitiveDeps fuel' dep graph (bmap_set st dep true)
           end)
        (lookup_deps graph service) (Some set)
  end.

(** Recursion budget given to [addTransitiveDeps] by the model. *)
Definition closure_fuel (graph : Graph) : nat := S (length (nodes graph)).

(** [overrideMap[o.ServiceName] = o] for each override: the last one wins. *)
Definition buildOverrideMap (os : list Override.Override) : list (string * Override.Override) :=
  fold_left (fun m o => amap_insert (Override.ServiceName o) o m) os [].

(** Step 2: force-deploy services and their dependencies. *)
Fixpoint forceDeploy (fuel : nat) (graph : Graph) (overrides : list (string * Override.Override))
    (set : bmap) : option bmap :=
  match overrides with
  | [] => Some set
  | (_, o) :: overrides' =>
      if Override.ForceDeploy o then
        match addTransitiveDeps fuel (Override.ServiceName o) graph
                (bmap_set set (Override.ServiceName o) true) with
        | None => None
        | Some s => forceDeploy fuel graph overrides' s
        end
      else forceDeploy fuel graph overrides' set
  end.

(** Step 3: [delete(deploySet, override.ServiceName)] for skipped services. *)
Definition applySkips (overrides : list (string * Override.Override)) (set : bmap) : bmap :=
  fold_left
    (fun s p => if Override.Skip (snd p) then bmap_set s (Override.ServiceName (snd p)) false else s)
    overrides set.

(** Field overrides of step 4 for one retained service. *)
Definition applyOverride (overrideMap : list (string * Override.Override))
    (svc : DeployableService.DeployableService) : DeployableService.DeployableService :=
  let '(branch, manifest, devLocal) :=
    match amap_lookup (DeployableService.ServiceName svc) overrideMap with
    | Some override =>
        (if String.eqb (Override.Branch override) "" then DeployableService.Branch svc
         else Override.Branch override,
         if String.eqb (Override.ManifestPath override) "" then DeployableService.Manifest svc
         else Override.ManifestPath override,
         if String.eqb (Override.DevLocal override) "" then DeployableService.DevLocal svc
         else Override.DevLocal override)
    | None => (DeployableService.Branch svc, DeployableService.Manifest svc,
               DeployableService.DevLocal svc)
    end in
  DeployableService.mkDeployableService (DeployableService.ServiceName svc)
    (DeployableService.Repository svc) manifest devLocal
    (DeployableService.DependsOn svc) branch (DeployableService.OriginalIdx svc).

(** Step 4: the final list in master order. *)
Fixpoint buildFinalList (order : list DeployableService.DeployableService)
    (overrideMap : list (string * Override.Override)) (deploySet : bmap)
    : list DeployableService.DeployableService :=
  match order with
  | [] => []
  | svc :: order' =>
      if deploySet (DeployableService.ServiceName svc)
      then applyOverride overrideMap svc :: buildFinalList order' overrideMap deploySet
      else buildFinalList order' overrideMap deploySet
  end.

(** The resolver ([main] minus the file I/O and printing); [None] is the
    [log.Fatalf] on an unknown root service (or exhausted fuel, never
    reached). *)
Definition resolve (master : MasterManifest.MasterManifest) (local : LocalConfig.LocalConfig)
    : option (list DeployableService.DeployableService) :=
  let graph := MasterManifest.DependencyAdjacencyList master in
  let overrideMap := buildOverrideMap (LocalConfig.DependencyOverrides local) in
  let root := LocalConfig.ServiceName local in
  let fuel := closure_fuel graph in
  if negb (existsb (fun svc => String.eqb (DeployableService.ServiceName svc) root)
             (MasterManifest.DeploymentOrder master))
  then None
  else
    match addTransitiveDeps fuel root graph (bmap_set bmap_empty root true) with
    | None => None
    | Some set1 =>
        match forceDeploy fuel graph overrideMap set1 with
        | None => None
        | Some set2 =>
            Some (buildFinalList (MasterManifest.DeploymentOrder master) overrideMap
                    (applySkips overrideMap set2))
        end
    end.

(** [l1] is a subsequence of [l2]: obtained by deleting elements, keeping
    the order of the rest. *)
Inductive subseq {A : Type} : list A -> list A -> Prop :=
| subseq_nil : subseq [] []
| subseq_skip x l1 l2 : subseq l1 l2 -> subseq l1 (x :: l2)
| subseq_take x l1 l2 : subseq l1 l2 -> subseq (x :: l1) (x :: l2).

(** The override directive that [buildOverrideMap] keeps for a name: the
    last one in the local configuration that names it. *)
Definition last_override (os : list Override.Override) (n : string) : option Override.Override :=
  find (fun o => String.eqb (Override.ServiceName o) n) (rev os).

(** Whether some override of the map flags [n] as skipped. *)
Definition skipped (overrides : list (string * Override.Override)) (n : string) : bool :=
  existsb (fun p => Override.Skip (snd p) && String.eqb (Override.ServiceName (snd p)) n) overrides.

(** ** [strings.TrimSpace] (Go standard library, used by the [main] functions)

    Go strings are byte sequences, here [list ascii] (8-bit characters).
    [TrimSpace] drops every leading and trailing rune for which
    [unicode.IsSpace] holds; a rune is decoded from its UTF-8 bytes, so a
    white-space rune is exactly one of the byte sequences below (invalid
    UTF-8 decodes to [RuneError], which is not white space). *)

(** ['\t'], ['\n'], ['\v'], ['\f'], ['\r'], [' ']. *)
Definition space1 (a : ascii) : bool :=
  let x := nat_of_ascii a in ((Nat.leb 9 x) && (Nat.leb x 13)) || (Nat.eqb x 32).

(** U+0085, U+00A0. *)
Definition space2 (a b : ascii) : bool :=
  (Nat.eqb (nat_of_ascii a) 194) && ((Nat.eqb (nat_of_ascii b) 133) || (Nat.eqb (nat_of_ascii b) 160)).

(** U+1680, U+2000 to U+200A, U+2028, U+2029, U+202F, U+205F, U+3000. *)
Definition space3 (a b c : ascii) : bool :=
  let x := nat_of_ascii a in let y := nat_of_ascii b in let z := nat_of_ascii c in
  ((Nat.eqb x 225) && (Nat.eqb y 154) && (Nat.eqb z 128)) ||
  ((Nat.eqb x 226) && (Nat.eqb y 128) &&
     (((Nat.leb 128 z) && (Nat.leb z 138)) || (Nat.eqb z 168) || (Nat.eqb z 169) || (Nat.eqb z 175))) ||
  ((Nat.eqb x 226) && (Nat.eqb y 129) && (Nat.eqb z 159)) ||
  ((Nat.eqb x 227) && (Nat.eqb y 128) && (Nat.eqb z 128)).

(** [TrimLeftFunc(s, unicode.IsSpace)]. *)
Fixpoint trim_left (l : list ascii) : list ascii :=
  match l with
  | [] => []
  | a :: l1 =>
      if space1 a then trim_left l1 else
      match l1 with
      | [] => l
      | b :: l2 =>
          if space2 a b then trim_left l2 else
          match l2 with
          | [] => l
          | c :: l3 => if space3 a b c then trim_left l3 else l
          end
      end
  end.

(** [TrimRightFunc(s, unicode.IsSpace)] on the reversed bytes: the last rune
    of the string is read backwards. *)
Fixpoint trim_right_rev (l : list ascii) : list ascii :=
  match l with
  | [] => []
  | c :: l1 =>
      if space1 c then trim_right_rev l1 else
      match l1 with
      | [] => l
      | b :: l2 =>
          if space2 b c then trim_right_rev l2 else
          match l2 with
          | [] => l
          | a :: l3 => if space3 a b c then trim_right_rev l3 else l
          end
      end
  end.

Definition TrimSpace (s : string) : string :=
  string_of_list_ascii (rev (trim_right_rev (rev (trim_left (list_ascii_of_string s))))).

(** ** Deployment-order generator ([main] of src/topological-sort.go) *)

Module ServiceMetadata.
Record ServiceMetadata := mkServiceMetadata {
  Repository : string; PathToManifest : string; PathToDevlocal : string; Branch : string }.
End ServiceMetadata.

Module Manifest.
Record Manifest := mkManifest {
  DefaultBranch : string;
  DependencyAdjacencyList : Graph;
  Services : list (string * ServiceMetadata.ServiceMetadata) }.
End Manifest.

(** The zero [ServiceMetadata{}] used when [manifest.Services] has no entry. *)
Definition emptyMetadata : ServiceMetadata.ServiceMetadata :=
  ServiceMetadata.mkServiceMetadata "" "" "" "".

(** The record appended for one service of the sorted list, given the
    service's metadata lookup and its [dependsOn] slice. *)
Definition deployDependencyOf (defaultBranch : string)
    (services : list (string * ServiceMetadata.ServiceMetadata))
    (dependsOn : list string) (service : string) : DeployDependency.DeployDependency :=
  let meta := match amap_lookup service services with Some m => m | None => emptyMetadata end in
  let branch := TrimSpace (ServiceMetadata.Branch meta) in
  let branch := if String.eqb branch "" then defaultBranch else branch in
  DeployDependency.mkDeployDependency service (TrimSpace (ServiceMetadata.Repository meta))
    (ServiceMetadata.PathToManifest meta) (ServiceMetadata.PathToDevlocal meta) dependsOn branch.

(** The [DeploymentOrder] written to deployment-order.yml; [None] is the
    [log.Fatalf] on a failed sort. *)
Definition generateDeploymentOrder (manifest : Manifest.Manifest)
    : option (list DeployDependency.DeployDependency) :=
  let graph := Manifest.DependencyAdjacencyList manifest in
  match topoSort graph with
  | Sorted sorted =>
      Some (map (fun service =>
                   deployDependencyOf (Manifest.DefaultBranch manifest) (Manifest.Services manifest)
                     (lookup_deps graph service) service) sorted)
  | _ => None
  end.

(** [main] of src/topological-sort/topological-sort.go, whose manifest holds
    a [map[string]DependsOn]. *)
Module DependsOnMain.
Record Manifest := mkManifest {
  DefaultBranch : string;
  DependencyAdjacencyList : TopoSortDependsOn.DGraph;
  Services : list (string * ServiceMetadata.ServiceMetadata) }.

Definition generateDeploymentOrder (manifest : Manifest)
    : option (list DeployDependency.DeployDependency) :=
  let graph := DependencyAdjacencyList manifest in
  match TopoSortDependsOn.topoSort graph with
  | Sorted sorted =>
      Some (map (fun service =>
                   deployDependencyOf (DefaultBranch manifest) (Services manifest)
                     (TopoSortDependsOn.dependsOn (TopoSortDependsOn.lookup graph service)) service)
              sorted)
  | _ => None
  end.

Definition wrapManifest (m : Manifest.Manifest) : Manifest :=
  mkManifest (Manifest.DefaultBranch m) (TopoSortDependsOn.wrap (Manifest.DependencyAdjacencyList m))
    (Manifest.Services m).
End DependsOnMain.

(** ** [GetGroups] and [main] of src/union-find/union-find.go *)

(** [GetGroups]: [groups[node] = uf.Find(node)] for every key of [uf.parent],
    visited in the order [keys]; [Find] compresses paths as it goes. *)
Fixpoint GetGroups (fuel : nat) (keys : list string) (parent : smap)
    (groups : list (string * string)) : option (list (string * string)) :=
  match keys with
  | [] => Some groups
  | node :: keys' =>
      match Find fuel parent node with
      | None => None
      | Some (root, parent') => GetGroups fuel keys' parent' (amap_insert node root groups)
      end
  end.

Module UnionFindMain.
Record ServiceDependencies := mkServiceDependencies { DependsOn : list string }.

(** [config.DependencyAdjacencyList], in its iteration order. *)
Definition Config := list (string * ServiceDependencies).

(** [allServices]: every key, then every name of a [DependsOn] list. *)
Definition allServices (cfg : Config) : bmap :=
  fold_left (fun s p => fold_left (fun s dep => bmap_set s dep true) (DependsOn (snd p)) s) cfg
    (fold_left (fun s p => bmap_set s (fst p) true) cfg bmap_empty).

(** The calls [uf.Union(service, dep)], in loop order. *)
Definition unionPairs (cfg : Config) : list (string * string) :=
  concat (map (fun p => map (fun dep => (fst p, dep)) (DependsOn (snd p))) cfg).

(** [main] from the parsed config to [groups]; [serviceList] is the iteration
    order of [allServices] and [parentKeys] that of [uf.parent] in
    [GetGroups], both unspecified in Go. *)
Definition run (cfg : Config) (serviceList parentKeys : list string)
    : option (list (string * string)) :=
  let fuel := length serviceList in
  match Unions fuel (InitialiseUnionFind serviceList) (unionPairs cfg) with
  | None => None
  | Some parent => GetGroups fuel parentKeys parent []
  end.
End UnionFindMain.

(** ** Definitions used by the proofs *)

Definition pushed (visited : bmap) (deps : list string) : list frame :=
  rev (map (fun d => mkFrame d false) (filter (fun d => negb (visited d)) deps)).

(** Invariant of the DFS state of [topoSort] on [g] ([visited], [onPath], [result], [stack]):
    - [visited] is exactly the set of names in [result], without repetition;
    - every dependency of a name in [result] comes earlier in [result];
    - names stay among the nodes of the graph;
    - a re-visit frame [(n, true)] only waits for dependencies that are
      visited or have a frame above it;
    - the re-visit frames below any frame form a path of the graph leading
      to it;
    - a name on the path that is not visited has a re-visit frame. *)
Record Inv (g : Graph) (visited onPath : bmap) (result : list string) (stack : list frame) : Prop := {
  inv_visited : forall x, visited x = true <-> In x result;
  inv_nodup : NoDup result;
  inv_order : forall u v, In u result -> edge g u v ->
              In v result /\ index_of v result < index_of u result;
  inv_result_nodes : forall x, In x result -> In x (nodes g);
  inv_stack_nodes : forall f, In f stack -> In (node f) (nodes g);
  inv_pending : forall above n below, stack = above ++ mkFrame n true :: below ->
                forall d, edge g n d -> visited d = true \/ In d (map node above);
  inv_path : forall above f below, stack = above ++ f :: below ->
             forall t, In (mkFrame t true) below -> reach_plus g t (node f);
  inv_onpath : forall x, onPath x = true -> visited x = false -> In (mkFrame x true) stack }.

(** Potential: the pushes still possible from names not yet expanded. *)
Definition pot (g : Graph) (visited onPath : bmap) : nat :=
  list_sum (map (fun n => if visited n || onPath n then 0 else S (length (lookup_deps g n)))
              (nodes g)).

(** Number of nodes whose representative is [r]. *)
Definition class_size (ns : list string) (R : string -> string) (r : string) : nat :=
  length (filter (fun z => String.eqb (R z) r) ns).

(** Invariant of the [parent] map, with a representative function [R] and a
    rank [d] as ghost state: parents stay among the nodes and keep the
    representative, a representative is its own parent, ranks decrease
    strictly along parent links and stay below the size of the class. *)
Record UFInv (ns : list string) (p : smap) (R : string -> string) (d : string -> nat) : Prop := {
  uf_closed : forall x, In x ns -> In (p x) ns;
  uf_root_in : forall x, In x ns -> In (R x) ns;
  uf_R_parent : forall x, In x ns -> R (p x) = R x;
  uf_root_fixed : forall x, In x ns -> p (R x) = R x;
  uf_R_root : forall x, In x ns -> p x = x -> R x = x;
  uf_rank : forall x, In x ns -> p x <> x -> d (p x) < d x;
  uf_rank_root : forall x, In x ns -> d (R x) <= d x;
  uf_bound : forall x, In x ns -> d x < class_size ns R (R x) }.

(** Nodes of the graph not yet in the deploy-set. *)
Definition missing (g : Graph) (set : bmap) : nat :=
  length (filter (fun n => negb (set n)) (nodes g)).

(** What a returning call [addTransitiveDeps(s, graph, set)] guarantees:
    the set only grows, everything added is reachable from [s], every
    dependency of [s] is in, and every added name has its dependencies in. *)
Definition atd_post (g : Graph) (s : string) (set set' : bmap) : Prop :=
  (forall x, set x = true -> set' x = true) /\
  (forall x, set' x = true -> set x = true \/ reach_plus g s x) /\
  (forall d, edge g s d -> set' d = true) /\
  (forall x, set' x = true -> set x = false -> forall v, edge g x v -> set' v = true).

(** The bytes start with a white-space rune. *)
Definition starts_space (l : list ascii) : bool :=
  match l with
  | [] => false
  | a :: l1 =>
      space1 a ||
      match l1 with
      | [] => false
      | b :: l2 => space2 a b || match l2 with [] => false | c :: _ => space3 a b c end
      end
  end.

(** The reversed bytes [l] end (read backwards) with a white-space rune. *)
Definition ends_space_rev (l : list ascii) : bool :=
  match l with
  | [] => false
  | c :: l1 =>
      space1 c ||
      match l1 with
      | [] => false
      | b :: l2 => space2 b c || match l2 with [] => false | a :: _ => space3 a b c end
      end
  end.

(** A deploy-set that holds the dependencies of each of its members. *)
Definition set_closed (g : Graph) (set : bmap) : Prop :=
  forall u v, set u = true -> edge g u v -> set v = true.

(** ** Example inputs *)

Definition ex_chain : Graph := [("A", ["B"]); ("B", ["C"]); ("C", [])].

Definition ex_two_cycle : Graph := [("A", ["B"]); ("B", ["A"])].

Definition ex_dangling : Graph := [("A", ["B"])].

Definition ex_uf_nodes : list string := ["A"; "B"; "X"; "Y"].
Definition ex_uf_unions : list (string * string) := [("A", "B"); ("X", "Y")].

Definition ex_atd_graph : Graph := [("S", ["A"]); ("A", ["B"])].
Definition ex_atd_set : bmap := bmap_set bmap_empty "A" true.

Definition ex_local_skip_B : LocalConfig.LocalConfig :=
  LocalConfig.mkLocalConfig "A" [Override.mkOverride "B" "" "" "" true false].

Definition ex_dep (n : string) : DeployDependency.DeployDependency :=
  DeployDependency.mkDeployDependency n ("repo/" ++ n) ("m/" ++ n) ("d/" ++ n) [] "main".

Definition ex_local_branch_B : LocalConfig.LocalConfig :=
  LocalConfig.mkLocalConfig "A" [Override.mkOverride "B" "feature" "" "" false false].

Definition ex_B_feature : DeployableService.DeployableService :=
  DeployableService.mkDeployableService "B" "repo/B" "m/B" "d/B" ["C"] "feature" 0.

(** The master plan [C, B, A, Y, X] of the spec's examples. *)
Definition ex_svc (n : string) (deps : list string) : DeployableService.DeployableService :=
  DeployableService.mkDeployableService n ("repo/" ++ n) ("m/" ++ n) ("d/" ++ n) deps "main" 0.

Definition ex_master : MasterManifest.MasterManifest :=
  MasterManifest.mkMasterManifest
    [ex_svc "C" []; ex_svc "B" ["C"]; ex_svc "A" ["B"]; ex_svc "Y" []; ex_svc "X" ["Y"]]
    [("A", ["B"]); ("B", ["C"]); ("C", []); ("X", ["Y"]); ("Y", [])].

(** A manifest over the chain [A -> B -> C]: "A" has a padded repository
    and a blank branch, "B" its own branch, "C" no metadata. *)
Definition ex_manifest : Manifest.Manifest :=
  Manifest.mkManifest "main" ex_chain
    [("A", ServiceMetadata.mkServiceMetadata "  repo/A  " "m/A" "d/A" " ");
     ("B", ServiceMetadata.mkServiceMetadata "repo/B" "m/B" "d/B" "dev")].

Definition ex_manifest_order : list DeployDependency.DeployDependency :=
  [DeployDependency.mkDeployDependency "C" "" "" "" [] "main";
   DeployDependency.mkDeployDependency "B" "repo/B" "m/B" "d/B" ["C"] "dev";
   DeployDependency.mkDeployDependency "A" "repo/A" "m/A" "d/A" ["B"] "main"].

(** The union-find configuration [A -> B], [X -> Y], with "B" listed too. *)
Definition ex_uf_config : UnionFindMain.Config :=
  [("A", UnionFindMain.mkServiceDependencies ["B"]);
   ("X", UnionFindMain.mkServiceDependencies ["Y"]);
   ("B", UnionFindMain.mkServiceDependencies [])].

(** ** Examples *)

Example topoSort_chain :
  topoSort [("A", ["B"]); ("B", ["C"]); ("C", [])] = Sorted ["C"; "B"; "A"].
Proof. reflexivity. Qed.

Example topoSort_two_cycle :
  topoSort [("A", ["B"]); ("B", ["A"])] = CycleAt "A".
Proof. reflexivity. Qed.

Example topoSort_dependsOn_chain :
  TopoSortDependsOn.topoSort
    (TopoSortDependsOn.wrap [("A", ["B"]); ("B", ["C"]); ("C", [])]) = Sorted ["C"; "B"; "A"].
Proof. reflexivity. Qed.

Example union_find_two_classes :
  match Unions 4 (InitialiseUnionFind ["A"; "B"; "X"; "Y"]) [("A", "B"); ("X", "Y")] with
  | Some p =>
      option_map fst (Find 4 p "B") = Some "A" /\ option_map fst (Find 4 p "Y") = Some "X"
  | None => False
  end.
Proof. vm_compute. split; reflexivity. Qed.

Example resolve_no_override :
  option_map (map DeployableService.ServiceName)
    (resolve ex_master (LocalConfig.mkLocalConfig "A" [])) = Some ["C"; "B"; "A"].
Proof. reflexivity. Qed.

Example resolve_skip_B :
  option_map (map DeployableService.ServiceName)
    (resolve ex_master
       (LocalConfig.mkLocalConfig "A" [Override.mkOverride "B" "" "" "" true false]))
  = Some ["C"; "A"].
Proof. reflexivity. Qed.

Example TrimSpace_unicode :
  TrimSpace (String (ascii_of_nat 194) (String (ascii_of_nat 160)
               (" a b" ++ String (ascii_of_nat 9) ""))) = "a b".
Proof. reflexivity. Qed.

(** * Proofs *)

(** ** Generic facts *)

Lemma eqb_refl_str (x : string) : String.eqb x x = true.
Proof. apply String.eqb_refl. Qed.

Lemma bmap_set_same (m : bmap) k b : bmap_set m k b k = b.
Proof. unfold bmap_set. now rewrite eqb_refl_str. Qed.

Lemma bmap_set_other (m : bmap) k b x : x <> k -> bmap_set m k b x = m x.
Proof. intros H. unfold bmap_set. destruct (String.eqb_spec x k); congruence. Qed.

Lemma smap_set_same (m : smap) k v : smap_set m k v k = v.
Proof. unfold smap_set. now rewrite eqb_refl_str. Qed.

Lemma smap_set_other (m : smap) k v x : x <> k -> smap_set m k v x = m x.
Proof. intros H. unfold smap_set. destruct (String.eqb_spec x k); congruence. Qed.

Lemma index_of_app_in x l m : In x l -> index_of x (l ++ m) = index_of x l.
Proof.
  induction l as [|y l IH]; simpl; [tauto|].
  intros [<-|H]; [now rewrite eqb_refl_str|].
  destruct (String.eqb_spec x y); [reflexivity|]. now rewrite IH.
Qed.

Lemma index_of_last x l : ~ In x l -> index_of x (l ++ [x]) = length l.
Proof.
  induction l as [|y l IH]; simpl; [now rewrite eqb_refl_str|].
  intros H. destruct (String.eqb_spec x y); [subst; tauto|]. rewrite IH; tauto.
Qed.

Lemma index_of_lt x l : In x l -> index_of x l < length l.
Proof.
  induction l as [|y l IH]; simpl; [tauto|].
  intros [<-|H]; [rewrite eqb_refl_str; lia|].
  destruct (String.eqb x y); [lia|]. specialize (IH H). lia.
Qed.

Lemma NoDup_snoc (l : list string) x : NoDup l -> ~ In x l -> NoDup (l ++ [x]).
Proof.
  intros Hl Hx. apply NoDup_app; [exact Hl|repeat constructor; simpl; tauto|].
  intros a Ha [<-|[]]. contradiction.
Qed.

Lemma list_sum_map_le {A : Type} (f f' : A -> nat) (l : list A) :
  (forall a, f' a <= f a) -> list_sum (map f' l) <= list_sum (map f l).
Proof.
  intros H. induction l as [|a l IH]; simpl; [lia|]. specialize (H a). lia.
Qed.

Lemma list_sum_map_lt {A : Type} (f f' : A -> nat) (l : list A) x c :
  (forall a, f' a <= f a) -> In x l -> f' x + c <= f x ->
  list_sum (map f' l) + c <= list_sum (map f l).
Proof.
  intros H Hin Hx. induction l as [|a l IH]; simpl in *; [tauto|].
  destruct Hin as [->|Hin].
  - pose proof (list_sum_map_le f f' l H). lia.
  - specialize (IH Hin). specialize (H a). lia.
Qed.

(** ** Graph facts *)

Lemma lookup_deps_key g u v : In v (lookup_deps g u) -> In u (map fst g).
Proof.
  induction g as [|[k ds] g IH]; simpl; [tauto|].
  destruct (String.eqb_spec k u); [now left|]. intros H; right; auto.
Qed.

Lemma lookup_deps_in_nodes g u v : In v (lookup_deps g u) -> In v (nodes g).
Proof.
  unfold nodes. intros H. apply in_or_app. right.
  induction g as [|[k ds] g IH]; simpl in *; [tauto|].
  apply in_or_app. destruct (String.eqb k u); [now left|]. right; auto.
Qed.

Lemma lookup_deps_not_key g x : ~ In x (map fst g) -> lookup_deps g x = [].
Proof.
  induction g as [|[k ds] g IH]; simpl; [reflexivity|].
  intros H. destruct (String.eqb_spec k x); [tauto|]. auto.
Qed.

Lemma lookup_deps_nodup g u ds :
  NoDup (map fst g) -> In (u, ds) g -> lookup_deps g u = ds.
Proof.
  induction g as [|[k ds'] g IH]; simpl; [tauto|].
  intros Hnd [Heq|Hin]; inversion Hnd; subst.
  - inversion Heq; subst. now rewrite eqb_refl_str.
  - destruct (String.eqb_spec k u); [|auto].
    subst. exfalso. apply H1. now apply (in_map fst) in Hin.
Qed.

Lemma key_in_nodes g k : In k (map fst g) -> In k (nodes g).
Proof. unfold nodes. intros; apply in_or_app; now left. Qed.

Lemma nodes_in_graph g x :
  In x (nodes g) <-> In x (map fst g) \/ exists u ds, In (u, ds) g /\ In x ds.
Proof.
  unfold nodes. rewrite in_app_iff, in_concat. split.
  - intros [H|[ds [Hds Hx]]]; [now left|right].
    apply in_map_iff in Hds as [[u ds'] [<- Hin]]. now exists u, ds'.
  - intros [H|[u [ds [Hin Hx]]]]; [now left|right].
    exists ds. split; [|exact Hx]. now apply (in_map snd) in Hin.
Qed.

(** ** Work-stack facts *)

Lemma push_deps_spec visited deps stack :
  push_deps visited deps stack = pushed visited deps ++ stack.
Proof.
  unfold push_deps, pushed. revert stack.
  induction deps as [|d deps IH]; intros stack; simpl; [reflexivity|].
  rewrite IH. destruct (visited d); simpl; [reflexivity|].
  now rewrite <- app_assoc.
Qed.

Lemma pushed_in visited deps f :
  In f (pushed visited deps) <->
  expanded f = false /\ In (node f) deps /\ visited (node f) = false.
Proof.
  unfold pushed. rewrite <- in_rev, in_map_iff. split.
  - intros [d [<- Hd]]. apply filter_In in Hd as [Hd Hv]. simpl.
    apply negb_true_iff in Hv. auto.
  - destruct f as [n e]; simpl. intros [-> [Hd Hv]]. exists n. split; [reflexivity|].
    apply filter_In. split; [exact Hd|]. now rewrite Hv.
Qed.

Lemma pushed_length visited deps : length (pushed visited deps) <= length deps.
Proof.
  unfold pushed. rewrite length_rev, length_map.
  induction deps as [|d deps IH]; simpl; [lia|]. destruct (negb (visited d)); simpl; lia.
Qed.

Lemma pushed_node_in visited deps d :
  In d deps -> visited d = false -> In d (map node (pushed visited deps)).
Proof.
  intros Hd Hv. apply in_map_iff. exists (mkFrame d false). split; [reflexivity|].
  apply pushed_in. simpl. auto.
Qed.

Lemma split_cons {A : Type} (above below rest : list A) f y :
  above ++ f :: below = y :: rest ->
  (above = [] /\ f = y /\ below = rest) \/
  (exists a', above = y :: a' /\ rest = a' ++ f :: below).
Proof.
  destruct above as [|a above]; simpl; intros H; inversion H; subst.
  - left; auto.
  - right. now exists above.
Qed.

Lemma split_app {A : Type} (pre rest above below : list A) x f :
  pre ++ x :: rest = above ++ f :: below ->
  (exists p2, pre = above ++ f :: p2 /\ below = p2 ++ x :: rest) \/
  (above = pre /\ f = x /\ below = rest) \/
  (exists a', above = pre ++ x :: a' /\ rest = a' ++ f :: below).
Proof.
  revert above. induction pre as [|p pre IH]; intros above H; simpl in H.
  - destruct above as [|a above]; simpl in H; inversion H; subst.
    + right; left; auto.
    + right; right. now exists above.
  - destruct above as [|a above]; simpl in H; inversion H; subst.
    + left. now exists pre.
    + destruct (IH above H2) as [[p2 [-> ->]]|[[-> [-> ->]]|[a' [-> ->]]]].
      * left. now exists p2.
      * right; left; auto.
      * right; right. now exists a'.
Qed.

(** ** The inner loop of [topoSort]: invariant *)

Section TopoSortLoop.

Variable g : Graph.

Lemma Inv_skip visited onPath result top stack :
  Inv g visited onPath result (top :: stack) -> visited (node top) = true ->
  Inv g visited onPath result stack.
Proof.
  intros I Hv. destruct I. constructor; auto.
  - intros f Hf. apply inv_stack_nodes0. now right.
  - intros above n below -> d Hd.
    destruct (inv_pending0 (top :: above) n below eq_refl d Hd) as [H|[H|H]]; auto.
    left; congruence.
  - intros above f below -> t Ht. exact (inv_path0 (top :: above) f below eq_refl t Ht).
  - intros x Ho Hx. destruct (inv_onpath0 x Ho Hx) as [H|H]; auto.
    subst top. simpl in Hv. congruence.
Qed.

Lemma Inv_finish visited onPath result x stack :
  Inv g visited onPath result (mkFrame x true :: stack) -> visited x = false ->
  Inv g (bmap_set visited x true) (bmap_set onPath x false) (result ++ [x]) stack.
Proof.
  intros I Hv. destruct I.
  assert (Hx : ~ In x result) by (rewrite <- inv_visited0; congruence).
  constructor.
  - intros y. rewrite in_app_iff. simpl. unfold bmap_set.
    destruct (String.eqb_spec y x) as [->|Hne]; [tauto|].
    rewrite inv_visited0. intuition congruence.
  - now apply NoDup_snoc.
  - intros u v Hu Huv. apply in_app_iff in Hu.
    destruct (in_dec string_dec u result) as [Hin|Hnin].
    + destruct (inv_order0 u v Hin Huv) as [Hv' Hlt]. split.
      * apply in_or_app; now left.
      * now rewrite !index_of_app_in.
    + destruct Hu as [Hu|[<-|[]]]; [contradiction|].
      destruct (inv_pending0 [] x stack eq_refl v Huv) as [Hvv|[]].
      apply inv_visited0 in Hvv. split; [apply in_or_app; now left|].
      rewrite index_of_app_in, index_of_last by assumption. now apply index_of_lt.
  - intros y Hy. apply in_app_iff in Hy as [Hy|[<-|[]]]; auto.
    apply (inv_stack_nodes0 (mkFrame x true)). now left.
  - intros f Hf. apply inv_stack_nodes0. now right.
  - intros above n below -> d Hd.
    destruct (inv_pending0 (mkFrame x true :: above) n below eq_refl d Hd) as [H|[H|H]].
    + left. unfold bmap_set. now destruct (String.eqb d x).
    + left. subst. simpl. apply bmap_set_same.
    + now right.
  - intros above f below -> t Ht. exact (inv_path0 (mkFrame x true :: above) f below eq_refl t Ht).
  - intros y Ho Hy. unfold bmap_set in Ho, Hy.
    destruct (String.eqb_spec y x); [discriminate|].
    destruct (inv_onpath0 y Ho Hy) as [H|H]; [congruence|exact H].
Qed.

Lemma Inv_expand visited onPath result x stack :
  Inv g visited onPath result (mkFrame x false :: stack) -> visited x = false -> onPath x = false ->
  Inv g visited (bmap_set onPath x true) result
      (push_deps visited (lookup_deps g x) (mkFrame x true :: stack)).
Proof.
  intros I Hv Ho. rewrite push_deps_spec. destruct I.
  set (P := pushed visited (lookup_deps g x)).
  assert (HP : forall f, In f P -> expanded f = false /\ edge g x (node f) /\ visited (node f) = false)
    by (intros f Hf; now apply pushed_in).
  assert (Hxn : In x (nodes g)) by (apply (inv_stack_nodes0 (mkFrame x false)); now left).
  constructor; auto.
  - intros f Hf. apply in_app_iff in Hf as [Hf|[<-|Hf]].
    + destruct (HP f Hf) as [_ [He _]]. now apply lookup_deps_in_nodes in He.
    + exact Hxn.
    + apply inv_stack_nodes0. now right.
  - intros above n below Hs d Hd.
    destruct (split_app P stack above below (mkFrame x true) (mkFrame n true) Hs)
      as [[p2 [HP2 _]]|[[Ha [Hf Hb]]|[a' [Ha Hr]]]].
    + assert (Hin : In (mkFrame n true) P) by (rewrite HP2; apply in_or_app; right; now left).
      destruct (HP _ Hin) as [He _]; discriminate.
    + inversion Hf; subst n. destruct (visited d) eqn:Hvd; [now left|right].
      rewrite Ha. now apply pushed_node_in.
    + destruct (inv_pending0 (mkFrame x false :: a') n below) with (d := d)
        as [H|H]; [simpl; now rewrite Hr| exact Hd | now left|].
      right. rewrite Ha, map_app. apply in_or_app. right. exact H.
  - intros above f below Hs t Ht.
    destruct (split_app P stack above below (mkFrame x true) f Hs)
      as [[p2 [HP2 Hb]]|[[Ha [Hf Hb]]|[a' [Ha Hr]]]].
    + assert (Hin : In f P) by (rewrite HP2; apply in_or_app; right; now left).
      destruct (HP f Hin) as [_ [He _]].
      rewrite Hb in Ht. apply in_app_iff in Ht as [Ht|[Ht|Ht]].
      * assert (Hin' : In (mkFrame t true) P) by (rewrite HP2; apply in_or_app; right; now right).
        destruct (HP _ Hin') as [He' _]; discriminate.
      * inversion Ht; subst t. now apply t_step.
      * eapply t_trans; [exact (inv_path0 [] (mkFrame x false) stack eq_refl t Ht)|].
        now apply t_step.
    + subst f below. exact (inv_path0 [] (mkFrame x false) stack eq_refl t Ht).
    + exact (inv_path0 (mkFrame x false :: a') f below (f_equal _ Hr) t Ht).
  - intros y Hoy Hvy. unfold bmap_set in Hoy.
    destruct (String.eqb_spec y x) as [Heq|Hne]; [subst y|].
    + apply in_app_iff. right. now left.
    + destruct (inv_onpath0 y Hoy Hvy) as [H|H]; [congruence|].
      apply in_app_iff. right. now right.
Qed.

End TopoSortLoop.

Section TopoSortRun.

Variable g : Graph.

Lemma dfs_done fuel : forall visited onPath result stack v o r,
  Inv g visited onPath result stack ->
  dfs g fuel visited onPath result stack = LoopDone v o r ->
  Inv g v o r [] /\ (forall y, visited y = true -> v y = true) /\
  (forall f, In f stack -> v (node f) = true).
Proof.
  induction fuel as [|fuel IH]; intros visited onPath result stack v o r I H; simpl in H;
    [discriminate|].
  destruct stack as [|[x e] stack].
  - inversion H; subst. split; [exact I|split; [auto|intros f []]].
  - simpl in H. destruct (visited x) eqn:Hv.
    + destruct (IH _ _ _ _ _ _ _ (Inv_skip g _ _ _ _ _ I Hv) H) as [I' [Hm Hs]].
      split; [exact I'|split; [exact Hm|]]. intros f [<-|Hf]; auto.
    + destruct e.
      * destruct (IH _ _ _ _ _ _ _ (Inv_finish g _ _ _ _ _ I Hv) H) as [I' [Hm Hs]].
        split; [exact I'|split].
        -- intros y Hy. apply Hm. unfold bmap_set. now destruct (String.eqb y x).
        -- intros f [<-|Hf]; auto. apply Hm. apply bmap_set_same.
      * destruct (onPath x) eqn:Ho; [discriminate|].
        destruct (IH _ _ _ _ _ _ _ (Inv_expand g _ _ _ _ _ I Hv Ho) H) as [I' [Hm Hs]].
        rewrite push_deps_spec in Hs.
        split; [exact I'|split; [exact Hm|]].
        intros f [<-|Hf]; simpl.
        -- apply (Hs (mkFrame x true)). apply in_or_app. right. now left.
        -- apply Hs. apply in_or_app. right. now right.
Qed.

Lemma dfs_cycle fuel : forall visited onPath result stack n,
  Inv g visited onPath result stack ->
  dfs g fuel visited onPath result stack = LoopCycle n -> reach_plus g n n.
Proof.
  induction fuel as [|fuel IH]; intros visited onPath result stack n I H; simpl in H;
    [discriminate|].
  destruct stack as [|[x e] stack]; [discriminate|].
  simpl in H. destruct (visited x) eqn:Hv.
  - exact (IH _ _ _ _ _ (Inv_skip g _ _ _ _ _ I Hv) H).
  - destruct e.
    + exact (IH _ _ _ _ _ (Inv_finish g _ _ _ _ _ I Hv) H).
    + destruct (onPath x) eqn:Ho.
      * inversion H; subst n.
        destruct (inv_onpath g _ _ _ _ I x Ho Hv) as [Heq|Hin]; [discriminate|].
        exact (inv_path g _ _ _ _ I [] (mkFrame x false) stack eq_refl x Hin).
      * exact (IH _ _ _ _ _ (Inv_expand g _ _ _ _ _ I Hv Ho) H).
Qed.

Lemma pot_le_total visited onPath :
  pot g visited onPath <= list_sum (map (fun n => S (length (lookup_deps g n))) (nodes g)).
Proof. apply list_sum_map_le. intros n. destruct (visited n || onPath n); lia. Qed.

Lemma dfs_fuel fuel : forall visited onPath result stack,
  Inv g visited onPath result stack ->
  length stack + pot g visited onPath < fuel ->
  dfs g fuel visited onPath result stack <> LoopFuel.
Proof.
  induction fuel as [|fuel IH]; intros visited onPath result stack I Hf; [lia|].
  simpl. destruct stack as [|[x e] stack]; [discriminate|].
  simpl in Hf. simpl. destruct (visited x) eqn:Hv.
  - apply IH; [exact (Inv_skip g _ _ _ _ _ I Hv)|lia].
  - destruct e.
    + apply IH; [exact (Inv_finish g _ _ _ _ _ I Hv)|].
      assert (pot g (bmap_set visited x true) (bmap_set onPath x false) <= pot g visited onPath).
      { apply list_sum_map_le. intros n. unfold bmap_set.
        destruct (String.eqb n x); simpl; [lia|]. destruct (visited n || onPath n); lia. }
      lia.
    + destruct (onPath x) eqn:Ho; [discriminate|].
      apply IH; [exact (Inv_expand g _ _ _ _ _ I Hv Ho)|].
      rewrite push_deps_spec, length_app. simpl.
      pose proof (pushed_length visited (lookup_deps g x)).
      assert (Hx : In x (nodes g)) by (apply (inv_stack_nodes g _ _ _ _ I (mkFrame x false)); now left).
      assert (pot g visited (bmap_set onPath x true) + S (length (lookup_deps g x))
              <= pot g visited onPath).
      { apply (list_sum_map_lt _ _ _ x); [|exact Hx|].
        - intros n. unfold bmap_set. destruct (String.eqb n x); rewrite ?orb_true_r; [lia|].
          destruct (visited n || onPath n); lia.
        - rewrite bmap_set_same, Hv, Ho, orb_true_r. simpl. lia. }
      lia.
Qed.

Lemma Inv_start visited onPath result k :
  Inv g visited onPath result [] -> In k (nodes g) ->
  Inv g visited onPath result [mkFrame k false].
Proof.
  intros I Hk. destruct I. constructor; auto.
  - intros f [<-|[]]. exact Hk.
  - intros above n below Hs. apply eq_sym, split_cons in Hs as [[_ [Hf _]]|[a' [_ Hr]]].
    + discriminate.
    + destruct a'; discriminate.
  - intros above f below Hs t Ht. apply eq_sym, split_cons in Hs as [[_ [_ Hb]]|[a' [_ Hr]]].
    + subst below. destruct Ht.
    + destruct a'; discriminate.
  - intros x Ho Hv. destruct (inv_onpath0 x Ho Hv).
Qed.

Lemma Inv_init : Inv g bmap_empty bmap_empty [] [].
Proof.
  constructor; simpl; try tauto.
  - intros x. unfold bmap_empty. split; [discriminate|tauto].
  - constructor.
  - intros above n below Hs. destruct above; discriminate.
  - intros above f below Hs. destruct above; discriminate.
  - intros x Hx. discriminate.
Qed.

Lemma sort_from_spec keys : forall visited onPath result,
  Inv g visited onPath result [] -> incl keys (map fst g) ->
  (forall l, sort_from g (fuel_bound g) keys visited onPath result = Sorted l ->
     (exists v o, Inv g v o l []) /\ (forall k, In k keys -> In k l) /\
     (forall y, In y result -> In y l)) /\
  (forall n, sort_from g (fuel_bound g) keys visited onPath result = CycleAt n ->
     reach_plus g n n) /\
  sort_from g (fuel_bound g) keys visited onPath result <> OutOfFuel.
Proof.
  induction keys as [|k keys IH]; intros visited onPath result I Hk; cbn [sort_from].
  - split; [|split; discriminate].
    intros l H. inversion H; subst l. split; [now exists visited, onPath|]. split; [intros k0 []|auto].
  - assert (Hks : incl keys (map fst g)) by (intros y Hy; apply Hk; now right).
    assert (Hkn : In k (nodes g)) by (apply key_in_nodes, Hk; now left).
    destruct (visited k) eqn:Hv.
    + destruct (IH visited onPath result I Hks) as [Hs [Hc Hf]].
      split; [|split; auto].
      intros l Hl. destruct (Hs l Hl) as [I' [Hin Hres]]. split; [exact I'|split; [|exact Hres]].
      intros y [<-|Hy]; auto. apply Hres. now apply (inv_visited g _ _ _ _ I).
    + pose proof (Inv_start _ _ _ k I Hkn) as I0.
      assert (Hfu : length [mkFrame k false] + pot g visited onPath < fuel_bound g).
      { pose proof (pot_le_total visited onPath). unfold fuel_bound. simpl. lia. }
      pose proof (dfs_fuel _ _ _ _ _ I0 Hfu) as Hnf.
      destruct (dfs g (fuel_bound g) visited onPath result [mkFrame k false]) as [v o r|n|] eqn:Hd.
      * destruct (dfs_done _ _ _ _ _ _ _ _ I0 Hd) as [I' [Hm Hs]].
        destruct (IH v o r I' Hks) as [HS [HC HF]].
        split; [|split; auto].
        intros l Hl. destruct (HS l Hl) as [I'' [Hin Hres]].
        split; [exact I''|split].
        -- intros y [<-|Hy]; auto. apply Hres.
           apply (inv_visited g _ _ _ _ I'). apply (Hs (mkFrame k false)). now left.
        -- intros y Hy. apply Hres. apply (inv_visited g _ _ _ _ I'). apply Hm.
           now apply (inv_visited g _ _ _ _ I).
      * split; [discriminate|split; [|discriminate]].
        intros n' Hn. inversion Hn; subst n'. exact (dfs_cycle _ _ _ _ _ _ I0 Hd).
      * contradiction.
Qed.

(** Everything [topoSort] guarantees about its three outcomes. *)
Lemma topoSort_sorted l :
  topoSort g = Sorted l ->
  NoDup l /\ (forall x, In x l -> In x (nodes g)) /\ (forall k, In k (map fst g) -> In k l) /\
  (forall u v, In u l -> edge g u v -> In v l /\ index_of v l < index_of u l).
Proof.
  unfold topoSort. intros H.
  destruct (sort_from_spec (map fst g) _ _ _ Inv_init (fun x H => H)) as [HS _].
  destruct (HS l H) as [[v [o I]] [Hk _]].
  split; [exact (inv_nodup g _ _ _ _ I)|split; [exact (inv_result_nodes g _ _ _ _ I)|]].
  split; [exact Hk|exact (inv_order g _ _ _ _ I)].
Qed.

Lemma topoSort_cycle n : topoSort g = CycleAt n -> reach_plus g n n.
Proof.
  unfold topoSort. intros H.
  destruct (sort_from_spec (map fst g) _ _ _ Inv_init (fun x H => H)) as [_ [HC _]].
  exact (HC n H).
Qed.

Lemma topoSort_terminates : topoSort g <> OutOfFuel.
Proof.
  unfold topoSort.
  destruct (sort_from_spec (map fst g) _ _ _ Inv_init (fun x H => H)) as [_ [_ HF]].
  exact HF.
Qed.

(** In a successful ordering every name reachable from a listed name is
    listed earlier. *)
Lemma topoSort_sorted_reach l u w :
  topoSort g = Sorted l -> reach_plus g u w -> In u l -> In w l /\ index_of w l < index_of u l.
Proof.
  intros H Hr. destruct (topoSort_sorted l H) as [_ [_ [_ Ho]]].
  induction Hr as [u w Huw|u v w _ IH1 _ IH2]; intros Hu.
  - exact (Ho u w Hu Huw).
  - destruct (IH1 Hu) as [Hv Hlt1]. destruct (IH2 Hv) as [Hw Hlt2]. split; [exact Hw|lia].
Qed.

End TopoSortRun.

Lemma acyclic_by_rank g (rank : string -> nat) :
  (forall u v, edge g u v -> rank v < rank u) -> acyclic g.
Proof.
  intros Hr x Hx.
  assert (H : forall a b, reach_plus g a b -> rank b < rank a).
  { intros a b Hab. induction Hab as [a b Hab|a b c _ IH1 _ IH2]; [now apply Hr|lia]. }
  specialize (H x x Hx). lia.
Qed.

Lemma reach_plus_first_edge g x z : reach_plus g x z -> exists y, edge g x y.
Proof. induction 1 as [x z H|x y z _ IH _ _]; [now exists z|exact IH]. Qed.

Lemma lookup_wrap g n :
  TopoSortDependsOn.lookup (TopoSortDependsOn.wrap g) n =
  TopoSortDependsOn.mkDependsOn (lookup_deps g n).
Proof.
  induction g as [|[k ds] g IH]; simpl; [reflexivity|]. now destruct (String.eqb k n).
Qed.

Lemma nodes_wrap g : TopoSortDependsOn.nodes (TopoSortDependsOn.wrap g) = nodes g.
Proof.
  unfold TopoSortDependsOn.nodes, TopoSortDependsOn.wrap, nodes. rewrite !map_map. reflexivity.
Qed.

Lemma fuel_bound_wrap g :
  TopoSortDependsOn.fuel_bound (TopoSortDependsOn.wrap g) = fuel_bound g.
Proof.
  unfold TopoSortDependsOn.fuel_bound, fuel_bound. rewrite nodes_wrap.
  do 3 f_equal. apply map_ext. intros n. now rewrite lookup_wrap.
Qed.

Lemma dfs_wrap g fuel : forall visited onPath result stack,
  TopoSortDependsOn.dfs (TopoSortDependsOn.wrap g) fuel visited onPath result stack =
  dfs g fuel visited onPath result stack.
Proof.
  induction fuel as [|fuel IH]; intros visited onPath result stack; simpl; [reflexivity|].
  destruct stack as [|top stack]; [reflexivity|].
  rewrite lookup_wrap. simpl. rewrite !IH. reflexivity.
Qed.

Lemma sort_from_wrap g fuel keys : forall visited onPath result,
  TopoSortDependsOn.sort_from (TopoSortDependsOn.wrap g) fuel keys visited onPath result =
  sort_from g fuel keys visited onPath result.
Proof.
  induction keys as [|k keys IH]; intros visited onPath result; simpl; [reflexivity|].
  rewrite dfs_wrap. destruct (visited k); [apply IH|].
  destruct (dfs g fuel visited onPath result [mkFrame k false]); auto.
Qed.

(** ** Claims about topoSort *)

(** C1: on every acyclic graph (a Go map: keys without repetition),
    [topoSort] returns without error an ordering that lists every node
    (every key and every name in a dependency list) exactly once and places
    every dependency [v] of [u] before [u]. *)
Theorem topoSort_acyclic_correct g :
  NoDup (map fst g) -> acyclic g ->
  exists l, topoSort g = Sorted l /\ NoDup l /\
    (forall x, In x l <-> In x (map fst g) \/ exists u ds, In (u, ds) g /\ In x ds) /\
    (forall u ds v, In (u, ds) g -> In v ds -> index_of v l < index_of u l).
Proof.
  intros Hnd Hac. destruct (topoSort g) as [l|n|] eqn:H.
  - exists l. destruct (topoSort_sorted g l H) as [Hl [Hn [Hk Ho]]].
    split; [reflexivity|split; [exact Hl|split]].
    + intros x. rewrite <- nodes_in_graph. split; [apply Hn|].
      intros Hx. apply nodes_in_graph in Hx as [Hx|[u [ds [Hu Hx]]]]; [now apply Hk|].
      assert (Huk : In u (map fst g)) by (now apply (in_map fst) in Hu).
      refine (proj1 (Ho u x (Hk u Huk) _)). unfold edge. now rewrite (lookup_deps_nodup g u ds Hnd Hu).
    + intros u ds v Hu Hv.
      assert (Huk : In u (map fst g)) by (now apply (in_map fst) in Hu).
      refine (proj2 (Ho u v (Hk u Huk) _)). unfold edge. now rewrite (lookup_deps_nodup g u ds Hnd Hu).
  - exfalso. exact (Hac n (topoSort_cycle g n H)).
  - exfalso. exact (topoSort_terminates g H).
Qed.

Lemma topoSort_acyclic_correct_witness :
  (NoDup (map fst ex_chain) /\ acyclic ex_chain) /\
  exists l, topoSort ex_chain = Sorted l /\ NoDup l /\
    (forall x, In x l <-> In x (map fst ex_chain) \/ exists u ds, In (u, ds) ex_chain /\ In x ds) /\
    (forall u ds v, In (u, ds) ex_chain -> In v ds -> index_of v l < index_of u l).
Proof.
  assert (Hnd : NoDup (map fst ex_chain)).
  { simpl. repeat constructor; simpl; intuition discriminate. }
  assert (Hac : acyclic ex_chain).
  { apply (acyclic_by_rank ex_chain
             (fun u => if String.eqb u "A" then 2 else if String.eqb u "B" then 1 else 0)).
    intros u v H. unfold edge, ex_chain, lookup_deps in H.
    destruct (String.eqb_spec "A" u) as [<-|_]; [destruct H as [<-|[]]; simpl; lia|].
    destruct (String.eqb_spec "B" u) as [<-|_]; [destruct H as [<-|[]]; simpl; lia|].
    destruct (String.eqb "C" u); destruct H. }
  split; [split; assumption|].
  exact (topoSort_acyclic_correct ex_chain Hnd Hac).
Defined.

(** C2: on every graph with a directed cycle, [topoSort] returns the cycle
    error (no ordering), and the service it names lies on a cycle. *)
Theorem topoSort_cycle_detected g :
  (exists x, reach_plus g x x) -> exists n, topoSort g = CycleAt n /\ reach_plus g n n.
Proof.
  intros [x Hx]. destruct (topoSort g) as [l|n|] eqn:H.
  - exfalso. destruct (reach_plus_first_edge g x x Hx) as [y Hy].
    destruct (topoSort_sorted g l H) as [_ [_ [Hk _]]].
    assert (Hxl : In x l) by (apply Hk; exact (lookup_deps_key g x y Hy)).
    destruct (topoSort_sorted_reach g l x x H Hx Hxl) as [_ Hlt]. lia.
  - exists n. split; [reflexivity|exact (topoSort_cycle g n H)].
  - exfalso. exact (topoSort_terminates g H).
Qed.

Lemma topoSort_cycle_detected_witness :
  (exists x, reach_plus ex_two_cycle x x) /\
  exists n, topoSort ex_two_cycle = CycleAt n /\ reach_plus ex_two_cycle n n.
Proof.
  assert (H : exists x, reach_plus ex_two_cycle x x).
  { exists "A". apply t_trans with "B"; apply t_step; unfold edge; simpl; auto. }
  split; [exact H|exact (topoSort_cycle_detected ex_two_cycle H)].
Defined.

(** C9: a name that appears in a dependency list but is not a key is a node
    without out-edges: it is in the ordering returned on success, [graph[x]]
    is the nil slice, and expanding it pushes nothing. *)
Theorem topoSort_dependency_only_node g l u ds x :
  NoDup (map fst g) -> topoSort g = Sorted l -> In (u, ds) g -> In x ds -> ~ In x (map fst g) ->
  In x l /\ lookup_deps g x = [] /\
  (forall visited stack, push_deps visited (lookup_deps g x) stack = stack).
Proof.
  intros Hnd H Hu Hx Hnk.
  destruct (topoSort_sorted g l H) as [_ [_ [Hk Ho]]].
  assert (Huk : In u (map fst g)) by (now apply (in_map fst) in Hu).
  assert (He : edge g u x) by (unfold edge; now rewrite (lookup_deps_nodup g u ds Hnd Hu)).
  rewrite (lookup_deps_not_key g x Hnk).
  split; [exact (proj1 (Ho u x (Hk u Huk) He))|split; reflexivity].
Qed.

Lemma topoSort_dependency_only_node_witness :
  (NoDup (map fst ex_dangling) /\ topoSort ex_dangling = Sorted ["B"; "A"] /\
   In ("A", ["B"]) ex_dangling /\ In "B" ["B"] /\ ~ In "B" (map fst ex_dangling)) /\
  (In "B" ["B"; "A"] /\ lookup_deps ex_dangling "B" = [] /\
   (forall visited stack, push_deps visited (lookup_deps ex_dangling "B") stack = stack)).
Proof.
  assert (H1 : NoDup (map fst ex_dangling)) by (repeat constructor; simpl; tauto).
  assert (H2 : topoSort ex_dangling = Sorted ["B"; "A"]) by reflexivity.
  assert (H3 : In ("A", ["B"]) ex_dangling) by (simpl; auto).
  assert (H4 : In "B" ["B"]) by (simpl; auto).
  assert (H5 : ~ In "B" (map fst ex_dangling)) by (simpl; intuition discriminate).
  split; [tauto|].
  exact (topoSort_dependency_only_node ex_dangling ["B"; "A"] "A" ["B"] "B" H1 H2 H3 H4 H5).
Defined.

(** C10: the variant over [map[string]DependsOn] computes exactly what the
    variant over [map[string][]string] computes on the same graph (same keys,
    same iteration order): same ordering, same cycle error, same node. *)
Theorem topoSort_variants_agree g :
  TopoSortDependsOn.topoSort (TopoSortDependsOn.wrap g) = topoSort g.
Proof.
  unfold TopoSortDependsOn.topoSort, topoSort. rewrite fuel_bound_wrap.
  replace (map fst (TopoSortDependsOn.wrap g)) with (map fst g)
    by (unfold TopoSortDependsOn.wrap; now rewrite map_map).
  apply sort_from_wrap.
Qed.

(** ** Union-Find *)

Section UnionFindProofs.

Variable ns : list string.

Lemma UFInv_R_idem p R d x : UFInv ns p R d -> In x ns -> R (R x) = R x.
Proof.
  intros I Hx. apply (uf_R_root ns _ _ _ I); [now apply (uf_root_in ns _ _ _ I)|].
  now apply (uf_root_fixed ns _ _ _ I).
Qed.

Lemma UFInv_rank_lt p R d x : UFInv ns p R d -> In x ns -> R x <> x -> d (R x) < d x.
Proof.
  intros I Hx Hne.
  assert (Hp : p x <> x) by (intros E; apply Hne; now apply (uf_R_root ns _ _ _ I)).
  pose proof (uf_rank ns _ _ _ I x Hx Hp).
  pose proof (uf_rank_root ns _ _ _ I (p x) (uf_closed ns _ _ _ I x Hx)).
  rewrite (uf_R_parent ns _ _ _ I x Hx) in H0. lia.
Qed.

Lemma class_size_le R r : class_size ns R r <= length ns.
Proof. apply filter_length_le. Qed.

(** Path compression: re-pointing nodes at their representative keeps the
    invariant. *)
Lemma UFInv_compress p p' R d :
  UFInv ns p R d -> (forall z, p' z = p z \/ (In z ns /\ p' z = R z)) -> UFInv ns p' R d.
Proof.
  intros I Hp'. constructor.
  - intros x Hx. destruct (Hp' x) as [->|[_ ->]]; [exact (uf_closed ns _ _ _ I x Hx)|].
    exact (uf_root_in ns _ _ _ I x Hx).
  - exact (uf_root_in ns _ _ _ I).
  - intros x Hx. destruct (Hp' x) as [->|[_ ->]]; [exact (uf_R_parent ns _ _ _ I x Hx)|].
    exact (UFInv_R_idem _ _ _ x I Hx).
  - intros x Hx. pose proof (uf_root_fixed ns _ _ _ I x Hx).
    destruct (Hp' (R x)) as [->|[_ ->]]; [exact H|exact (UFInv_R_idem _ _ _ x I Hx)].
  - intros x Hx Hf. destruct (Hp' x) as [E|[_ E]]; rewrite E in Hf;
      [exact (uf_R_root ns _ _ _ I x Hx Hf)|exact Hf].
  - intros x Hx Hne. destruct (Hp' x) as [E|[_ E]]; rewrite E in *;
      [exact (uf_rank ns _ _ _ I x Hx Hne)|exact (UFInv_rank_lt _ _ _ x I Hx Hne)].
  - exact (uf_rank_root ns _ _ _ I).
  - exact (uf_bound ns _ _ _ I).
Qed.

Lemma Find_spec fuel : forall p R d x,
  UFInv ns p R d -> In x ns -> d x < fuel ->
  exists p', Find fuel p x = Some (R x, p') /\
             (forall z, p' z = p z \/ (In z ns /\ p' z = R z)).
Proof.
  induction fuel as [|fuel IH]; intros p R d x I Hx Hf; [lia|]. simpl.
  destruct (String.eqb_spec (p x) x) as [Hroot|Hne]; simpl.
  - exists p. rewrite Hroot, (uf_R_root ns _ _ _ I x Hx Hroot). split; [reflexivity|auto].
  - pose proof (uf_rank ns _ _ _ I x Hx Hne).
    destruct (IH p R d (p x) I (uf_closed ns _ _ _ I x Hx) ltac:(lia)) as [p1 [Hf1 Hp1]].
    rewrite Hf1, (uf_R_parent ns _ _ _ I x Hx).
    exists (smap_set p1 x (R x)). rewrite smap_set_same. split; [reflexivity|].
    intros z. destruct (String.eqb_spec z x) as [->|Hzx].
    + right. split; [exact Hx|apply smap_set_same].
    + rewrite smap_set_other by exact Hzx. apply Hp1.
Qed.

Lemma class_size_merge R R' rx ry :
  rx <> ry -> (forall z, R' z = if String.eqb (R z) ry then rx else R z) ->
  class_size ns R' rx = class_size ns R rx + class_size ns R ry /\
  (forall r, r <> rx -> r <> ry -> class_size ns R' r = class_size ns R r).
Proof.
  intros Hne HR'. unfold class_size. split.
  - induction ns as [|z l IH]; simpl; [reflexivity|]. rewrite HR'.
    destruct (String.eqb_spec (R z) ry) as [E|E]; simpl.
    + rewrite eqb_refl_str. rewrite E. destruct (String.eqb_spec ry rx); [congruence|]. simpl. lia.
    + destruct (String.eqb (R z) rx); simpl; lia.
  - intros r Hrx Hry. induction ns as [|z l IH]; simpl; [reflexivity|]. rewrite HR'.
    destruct (String.eqb_spec (R z) ry) as [E|E].
    + destruct (String.eqb_spec rx r); [congruence|]. rewrite E.
      destruct (String.eqb_spec ry r); [congruence|]. exact IH.
    + destruct (String.eqb (R z) r); simpl; lia.
Qed.

Lemma Union_spec p R d x y :
  UFInv ns p R d -> In x ns -> In y ns ->
  exists p' R' d', Union (length ns) p x y = Some p' /\ UFInv ns p' R' d' /\
    R' x = R' y /\ (forall a b, R a = R b -> R' a = R' b) /\
    (forall a b, R' a = R' b ->
       R a = R b \/ (R a = R x /\ R b = R y) \/ (R a = R y /\ R b = R x)).
Proof.
  intros I Hx Hy. unfold Union.
  assert (Hfx : d x < length ns)
    by (pose proof (uf_bound ns _ _ _ I x Hx); pose proof (class_size_le R (R x)); lia).
  destruct (Find_spec _ p R d x I Hx Hfx) as [p1 [-> Hp1]].
  pose proof (UFInv_compress _ _ _ _ I Hp1) as I1.
  assert (Hfy : d y < length ns)
    by (pose proof (uf_bound ns _ _ _ I1 y Hy); pose proof (class_size_le R (R y)); lia).
  destruct (Find_spec _ p1 R d y I1 Hy Hfy) as [p2 [-> Hp2]].
  pose proof (UFInv_compress _ _ _ _ I1 Hp2) as I2.
  destruct (String.eqb_spec (R x) (R y)) as [Exy|Nxy]; simpl.
  - exists p2, R, d. split; [reflexivity|split; [exact I2|split; [exact Exy|split; auto]]].
  - set (rx := R x) in *. set (ry := R y) in *.
    set (R' := fun z => if String.eqb (R z) ry then rx else R z).
    set (d' := fun z => if String.eqb (R z) ry then d z + d rx + 1 else d z).
    assert (Hrx : In rx ns) by exact (uf_root_in ns _ _ _ I2 x Hx).
    assert (Hry : In ry ns) by exact (uf_root_in ns _ _ _ I2 y Hy).
    assert (Rrx : R rx = rx) by exact (UFInv_R_idem _ _ _ x I2 Hx).
    assert (Rry : R ry = ry) by exact (UFInv_R_idem _ _ _ y I2 Hy).
    assert (Prx : p2 rx = rx) by exact (uf_root_fixed ns _ _ _ I2 x Hx).
    assert (R'_eq : forall z, R' z = if String.eqb (R z) ry then rx else R z) by reflexivity.
    destruct (class_size_merge R R' rx ry Nxy R'_eq) as [Cm Co].
    exists (smap_set p2 ry rx), R', d'. split; [reflexivity|]. split; [|split; [|split]].
    + constructor.
      * intros z Hz. destruct (String.eqb_spec z ry) as [->|Hz'].
        -- now rewrite smap_set_same.
        -- rewrite smap_set_other by exact Hz'. exact (uf_closed ns _ _ _ I2 z Hz).
      * intros z Hz. unfold R'. destruct (String.eqb (R z) ry); [exact Hrx|].
        exact (uf_root_in ns _ _ _ I2 z Hz).
      * intros z Hz. unfold R'. destruct (String.eqb_spec z ry) as [->|Hz'].
        -- rewrite smap_set_same, Rrx, Rry, eqb_refl_str.
           destruct (String.eqb_spec rx ry); [congruence|reflexivity].
        -- rewrite smap_set_other by exact Hz'. now rewrite (uf_R_parent ns _ _ _ I2 z Hz).
      * intros z Hz. unfold R'. destruct (String.eqb_spec (R z) ry) as [E|E].
        -- rewrite smap_set_other by congruence. exact Prx.
        -- rewrite smap_set_other by congruence. exact (uf_root_fixed ns _ _ _ I2 z Hz).
      * intros z Hz Hf. destruct (String.eqb_spec z ry) as [->|Hz'].
        -- rewrite smap_set_same in Hf. congruence.
        -- rewrite smap_set_other in Hf by exact Hz'.
           pose proof (uf_R_root ns _ _ _ I2 z Hz Hf) as Rz. unfold R'. rewrite Rz.
           destruct (String.eqb_spec z ry); [congruence|reflexivity].
      * intros z Hz Hne. unfold d'. destruct (String.eqb_spec z ry) as [->|Hz'].
        -- rewrite smap_set_same, Rrx, Rry, eqb_refl_str.
           destruct (String.eqb_spec rx ry); [congruence|lia].
        -- rewrite smap_set_other in * by exact Hz'.
           rewrite (uf_R_parent ns _ _ _ I2 z Hz).
           pose proof (uf_rank ns _ _ _ I2 z Hz Hne).
           destruct (String.eqb (R z) ry); lia.
      * intros z Hz. unfold d', R'. destruct (String.eqb_spec (R z) ry) as [E|E].
        -- rewrite Rrx. destruct (String.eqb_spec rx ry); [congruence|lia].
        -- rewrite (UFInv_R_idem _ _ _ z I2 Hz).
           destruct (String.eqb_spec (R z) ry); [congruence|].
           exact (uf_rank_root ns _ _ _ I2 z Hz).
      * intros z Hz. pose proof (uf_bound ns _ _ _ I2 z Hz) as Bz.
        unfold d'. rewrite R'_eq. destruct (String.eqb_spec (R z) ry) as [E|E].
        -- rewrite Cm. rewrite E in Bz.
           pose proof (uf_bound ns _ _ _ I2 rx Hrx) as Bx. rewrite Rrx in Bx. lia.
        -- destruct (String.eqb_spec (R z) rx) as [E'|E'].
           ++ rewrite E' in *. rewrite Cm. lia.
           ++ rewrite (Co (R z) E' E). exact Bz.
    + unfold R'. rewrite eqb_refl_str. fold rx.
      destruct (String.eqb_spec rx ry); [congruence|reflexivity].
    + intros a b E. unfold R'. now rewrite E.
    + intros a b E. unfold R' in E.
      destruct (String.eqb_spec (R a) ry) as [Ea|Ea]; destruct (String.eqb_spec (R b) ry) as [Eb|Eb].
      * left; congruence.
      * right; right. split; [exact Ea|congruence].
      * right; left. split; [congruence|exact Eb].
      * left; exact E.
Qed.

End UnionFindProofs.

Lemma connected_mono (us us' : list (string * string)) a b :
  (forall u v, In (u, v) us -> In (u, v) us') -> connected us a b -> connected us' a b.
Proof.
  intros Hsub H. induction H as [a b H|a|a b _ IH|a b c _ IH1 _ IH2].
  - apply rst_step. now apply Hsub.
  - apply rst_refl.
  - now apply rst_sym.
  - now apply rst_trans with b.
Qed.

Lemma connected_same_rep (us : list (string * string)) (R : string -> string) a b :
  (forall u v, In (u, v) us -> R u = R v) -> connected us a b -> R a = R b.
Proof.
  intros HR H. induction H as [a b H|a|a b _ IH|a b c _ IH1 _ IH2]; auto; congruence.
Qed.

Lemma Unions_spec ns us : forall p R d done,
  UFInv ns p R d -> (forall x y, In (x, y) us -> In x ns /\ In y ns) ->
  (forall u v, In (u, v) done -> R u = R v) ->
  (forall a b, In a ns -> In b ns -> R a = R b -> connected done a b) ->
  exists p' R' d', Unions (length ns) p us = Some p' /\ UFInv ns p' R' d' /\
    (forall u v, In (u, v) (done ++ us) -> R' u = R' v) /\
    (forall a b, In a ns -> In b ns -> R' a = R' b -> connected (done ++ us) a b).
Proof.
  induction us as [|[x y] us IH]; intros p R d done I Hus Hsound Hcompl; simpl.
  - exists p, R, d. rewrite app_nil_r. auto.
  - destruct (Hus x y (or_introl eq_refl)) as [Hx Hy].
    destruct (Union_spec ns p R d x y I Hx Hy) as [p1 [R1 [d1 [-> [I1 [Hxy [Hkeep Hsplit]]]]]]].
    assert (Hsub : forall u v, In (u, v) done -> In (u, v) (done ++ [(x, y)]))
      by (intros u v H; apply in_or_app; now left).
    assert (Hedge : connected (done ++ [(x, y)]) x y)
      by (apply rst_step; apply in_or_app; right; now left).
    destruct (IH p1 R1 d1 (done ++ [(x, y)]) I1) as [p' [R' [d' [Hr [I' [Hs Hc]]]]]].
    + intros a b H. apply Hus. now right.
    + intros u v H. apply in_app_iff in H as [H|[H|[]]].
      * apply Hkeep. now apply Hsound.
      * inversion H; subst. exact Hxy.
    + intros a b Ha Hb E. destruct (Hsplit a b E) as [E'|[[Ea Eb]|[Ea Eb]]].
      * apply (connected_mono done); auto.
      * apply rst_trans with x; [apply (connected_mono done); auto|].
        apply rst_trans with y; [exact Hedge|]. apply (connected_mono done); auto.
      * apply rst_trans with y; [apply (connected_mono done); auto|].
        apply rst_trans with x; [now apply rst_sym|]. apply (connected_mono done); auto.
    + exists p', R', d'. rewrite <- app_assoc in Hs, Hc. simpl in *. auto.
Qed.

Lemma InitialiseUnionFind_in ns z : In z ns -> InitialiseUnionFind ns z = z.
Proof.
  unfold InitialiseUnionFind.
  assert (H : forall l p, fold_left (fun parent n => smap_set parent n n) l p z =
                          if in_dec string_dec z l then z else p z).
  { induction l as [|n l IH]; intros p; simpl; [reflexivity|]. rewrite IH.
    destruct (in_dec string_dec z l) as [Hin|Hnin];
      destruct (string_dec n z) as [->|Hne]; simpl; auto.
    - now rewrite smap_set_same.
    - rewrite smap_set_other by congruence. tauto. }
  intros Hz. rewrite H. now destruct (in_dec string_dec z ns).
Qed.

Lemma class_size_pos ns z : In z ns -> 0 < length (filter (fun w => String.eqb w z) ns).
Proof.
  induction ns as [|w l IH]; simpl; [tauto|]. intros [->|H].
  - rewrite eqb_refl_str. simpl. lia.
  - destruct (String.eqb w z); simpl; [lia|auto].
Qed.

Lemma UFInv_init ns : UFInv ns (InitialiseUnionFind ns) (fun z => z) (fun _ => 0).
Proof.
  constructor; intros x Hx; rewrite ?(InitialiseUnionFind_in ns x Hx); auto.
  - congruence.
  - now apply class_size_pos.
Qed.

(** C3: after [InitialiseUnionFind ns] and any sequence of [Union] calls on
    nodes of [ns], [Find] terminates on every node; [Find(Find(x))] (the
    second call on the map left by the first) returns [Find(x)]; and two
    successive calls [Find(x)], [Find(y)] return the same root exactly when
    [x] and [y] are joined by a chain of the performed unions. *)
Theorem union_find_equivalence ns us :
  (forall x y, In (x, y) us -> In x ns /\ In y ns) ->
  exists p, Unions (length ns) (InitialiseUnionFind ns) us = Some p /\
    (forall x, In x ns ->
       exists r p1 p2, Find (length ns) p x = Some (r, p1) /\ Find (length ns) p1 r = Some (r, p2)) /\
    (forall x y rx ry p1 p2, In x ns -> In y ns ->
       Find (length ns) p x = Some (rx, p1) -> Find (length ns) p1 y = Some (ry, p2) ->
       (rx = ry <-> connected us x y)).
Proof.
  intros Hus.
  destruct (Unions_spec ns us _ _ _ [] (UFInv_init ns) Hus) as [p [R [d [Hr [I [Hs Hc]]]]]].
  - intros u v [].
  - intros a b _ _ ->. apply rst_refl.
  - exists p. split; [exact Hr|]. simpl in Hs, Hc.
    assert (Hf : forall q x, UFInv ns q R d -> In x ns ->
                 exists q', Find (length ns) q x = Some (R x, q') /\ UFInv ns q' R d).
    { intros q x Iq Hx.
      assert (Hb : d x < length ns)
        by (pose proof (uf_bound _ _ _ _ Iq x Hx); pose proof (class_size_le ns R (R x)); lia).
      destruct (Find_spec ns _ q R d x Iq Hx Hb) as [q' [Hq Hq']].
      exists q'. split; [exact Hq|exact (UFInv_compress _ _ _ _ _ Iq Hq')]. }
    split.
    + intros x Hx. destruct (Hf p x I Hx) as [p1 [H1 I1]].
      destruct (Hf p1 (R x) I1 (uf_root_in _ _ _ _ I x Hx)) as [p2 [H2 _]].
      rewrite (UFInv_R_idem _ _ _ _ x I Hx) in H2.
      exists (R x), p1, p2. auto.
    + intros x y rx ry p1 p2 Hx Hy H1 H2.
      destruct (Hf p x I Hx) as [q1 [H1' I1]]. rewrite H1' in H1. inversion H1; subst rx q1.
      destruct (Hf p1 y I1 Hy) as [q2 [H2' _]]. rewrite H2' in H2. inversion H2; subst ry q2.
      split; [exact (Hc x y Hx Hy)|]. now apply connected_same_rep.
Qed.

Lemma union_find_equivalence_witness :
  (forall x y, In (x, y) ex_uf_unions -> In x ex_uf_nodes /\ In y ex_uf_nodes) /\
  exists p, Unions (length ex_uf_nodes) (InitialiseUnionFind ex_uf_nodes) ex_uf_unions = Some p /\
    (forall x, In x ex_uf_nodes ->
       exists r p1 p2, Find (length ex_uf_nodes) p x = Some (r, p1) /\
                       Find (length ex_uf_nodes) p1 r = Some (r, p2)) /\
    (forall x y rx ry p1 p2, In x ex_uf_nodes -> In y ex_uf_nodes ->
       Find (length ex_uf_nodes) p x = Some (rx, p1) ->
       Find (length ex_uf_nodes) p1 y = Some (ry, p2) ->
       (rx = ry <-> connected ex_uf_unions x y)).
Proof.
  assert (H : forall x y, In (x, y) ex_uf_unions -> In x ex_uf_nodes /\ In y ex_uf_nodes).
  { intros x y Hxy. simpl in Hxy.
    destruct Hxy as [E|[E|[]]]; inversion E; subst; simpl; tauto. }
  split; [exact H|exact (union_find_equivalence ex_uf_nodes ex_uf_unions H)].
Defined.

(** ** addTransitiveDeps *)

Lemma missing_mono g (s s' : bmap) :
  (forall x, s x = true -> s' x = true) -> missing g s' <= missing g s.
Proof.
  unfold missing. intros H. induction (nodes g) as [|n l IH]; simpl; [lia|].
  destruct (s n) eqn:E; [rewrite (H n E)|]; simpl; [exact IH|].
  destruct (s' n); simpl; lia.
Qed.

Lemma missing_add g (s : bmap) d :
  In d (nodes g) -> s d = false -> missing g (bmap_set s d true) + 1 <= missing g s.
Proof.
  unfold missing. intros Hd Hs. induction (nodes g) as [|n l IH]; simpl in *; [tauto|].
  assert (Hle : length (filter (fun n => negb (bmap_set s d true n)) l) <=
                length (filter (fun n => negb (s n)) l)).
  { clear. induction l as [|n l IH]; simpl; [lia|]. unfold bmap_set at 1.
    destruct (String.eqb n d); simpl; destruct (s n); simpl; lia. }
  unfold bmap_set at 1. destruct (String.eqb_spec n d) as [->|Hne].
  - rewrite Hs. simpl. lia.
  - destruct Hd as [Hd|Hd]; [congruence|]. specialize (IH Hd). destruct (s n); simpl; lia.
Qed.

Lemma missing_le g s : missing g s <= length (nodes g).
Proof. apply filter_length_le. Qed.

Lemma addTransitiveDeps_spec g fuel : forall s set,
  missing g set < fuel ->
  exists set', addTransitiveDeps fuel s g set = Some set' /\ atd_post g s set set'.
Proof.
  induction fuel as [|fuel IH]; intros s set Hf; [lia|]. simpl.
  set (F := fun (acc : option bmap) (dep : string) =>
              match acc with
              | Some st => if st dep then Some st
                           else addTransitiveDeps fuel dep g (bmap_set st dep true)
              | None => None
              end).
  (* the loop over [graph[s]], with the invariant of the partial set [st] *)
  assert (Hloop : forall ds st,
    (forall d, In d ds -> edge g s d) ->
    (forall x, set x = true -> st x = true) ->
    (forall x, st x = true -> set x = true \/ reach_plus g s x) ->
    (forall x, st x = true -> set x = false -> forall v, edge g x v -> st v = true) ->
    missing g st <= missing g set ->
    exists st', fold_left F ds (Some st) = Some st' /\
      (forall x, st x = true -> st' x = true) /\
      (forall x, st' x = true -> set x = true \/ reach_plus g s x) /\
      (forall x, st' x = true -> set x = false -> forall v, edge g x v -> st' v = true) /\
      (forall d, In d ds -> st' d = true)).
  { induction ds as [|d ds IHds]; intros st Hds H1 H2 H3 Hm; simpl.
    - exists st. split; [reflexivity|]. split; [auto|split; [exact H2|split; [exact H3|]]].
      intros d [].
    - assert (Hsd : edge g s d) by (apply Hds; now left).
      assert (Hds' : forall d', In d' ds -> edge g s d') by (intros d' H; apply Hds; now right).
      destruct (st d) eqn:Est.
      + destruct (IHds st Hds' H1 H2 H3 Hm) as [st' [Hr [K1 [K2 [K3 K4]]]]].
        exists st'. split; [exact Hr|]. split; [exact K1|split; [exact K2|split; [exact K3|]]].
        intros d' [<-|Hd']; auto.
      + assert (Hdn : In d (nodes g)) by exact (lookup_deps_in_nodes g s d Hsd).
        pose proof (missing_add g st d Hdn Est).
        destruct (IH d (bmap_set st d true) ltac:(lia)) as [st1 [Hr1 [J1 [J2 [J3 J4]]]]].
        rewrite Hr1.
        assert (Hsub : forall x, st x = true -> st1 x = true).
        { intros x Hx. apply J1. unfold bmap_set. now destruct (String.eqb x d). }
        assert (Hd1 : st1 d = true) by (apply J1; apply bmap_set_same).
        destruct (IHds st1 Hds') as [st' [Hr [K1 [K2 [K3 K4]]]]].
        * intros x Hx. apply Hsub, H1, Hx.
        * intros x Hx. destruct (J2 x Hx) as [Hx'|Hx'].
          -- unfold bmap_set in Hx'. destruct (String.eqb_spec x d) as [->|_].
             ++ right. now apply t_step.
             ++ exact (H2 x Hx').
          -- right. apply t_trans with d; [now apply t_step|exact Hx'].
        * intros x Hx Hsx v Hv. destruct (st x) eqn:Ex.
          -- apply Hsub. exact (H3 x Ex Hsx v Hv).
          -- destruct (String.eqb_spec x d) as [->|Hne].
             ++ exact (J3 v Hv).
             ++ apply (J4 x Hx); [|exact Hv]. unfold bmap_set.
                destruct (String.eqb_spec x d); [congruence|exact Ex].
        * pose proof (missing_mono g _ _ Hsub). lia.
        * exists st'. split; [exact Hr|].
          split; [intros x Hx; apply K1, Hsub, Hx|split; [exact K2|split; [exact K3|]]].
          intros d' [<-|Hd']; [apply K1, Hd1|auto]. }
  destruct (Hloop (lookup_deps g s) set) as [st' [Hr [K1 [K2 [K3 K4]]]]].
  - intros d Hd. exact Hd.
  - auto.
  - intros x Hx. now left.
  - intros x Hx Hx'. congruence.
  - lia.
  - exists st'. split; [exact Hr|]. split; [exact K1|split; [exact K2|split; [|exact K3]]].
    intros d Hd. apply K4. exact Hd.
Qed.

Lemma addTransitiveDeps_terminates g s set :
  exists set', addTransitiveDeps (closure_fuel g) s g set = Some set' /\ atd_post g s set set'.
Proof.
  apply addTransitiveDeps_spec. unfold closure_fuel. pose proof (missing_le g set). lia.
Qed.

Lemma reach_plus_split g s x :
  reach_plus g s x -> edge g s x \/ exists y, edge g s y /\ reach_plus g y x.
Proof.
  induction 1 as [s x H|s y x _ IH1 H2 _].
  - now left.
  - right. destruct IH1 as [H|[z [Hz Hzy]]].
    + now exists y.
    + exists z. split; [exact Hz|]. now apply t_trans with y.
Qed.

Lemma closed_set_reach g (set : bmap) a b :
  (forall u v, set u = true -> edge g u v -> set v = true) ->
  reach_plus g a b -> set a = true -> set b = true.
Proof. intros Hc H. induction H as [a b H|a b c _ IH1 _ IH2]; eauto. Qed.

(** C8 (as it holds): [addTransitiveDeps] terminates on every graph, cycles
    included; on return the set holds its previous members plus only names
    reachable from the start service; and when every previous member other
    than the start service already had its dependencies in the set (as at
    both call sites of [main]), every name reachable from the start service
    by one or more edges is in the set. *)
Theorem addTransitiveDeps_closure g s set :
  exists set', addTransitiveDeps (closure_fuel g) s g set = Some set' /\
    (forall x, set x = true -> set' x = true) /\
    (forall x, set' x = true -> set x = true \/ reach_plus g s x) /\
    ((forall u v, set u = true -> u <> s -> edge g u v -> set v = true) ->
     forall x, reach_plus g s x -> set' x = true).
Proof.
  destruct (addTransitiveDeps_terminates g s set) as [set' [Hr [P1 [P2 [P3 P4]]]]].
  exists set'. split; [exact Hr|split; [exact P1|split; [exact P2|]]].
  intros Hpre x Hx.
  assert (Hc : forall u v, set' u = true -> edge g u v -> set' v = true).
  { intros u v Hu Huv. destruct (string_dec u s) as [->|Hne]; [exact (P3 v Huv)|].
    destruct (set u) eqn:Eu; [exact (P1 v (Hpre u v Eu Hne Huv))|exact (P4 u Hu Eu v Huv)]. }
  destruct (reach_plus_split g s x Hx) as [H|[y [Hy Hyx]]]; [exact (P3 x H)|].
  exact (closed_set_reach g set' y x Hc Hyx (P3 y Hy)).
Qed.

(** C8 as stated fails: when a previous member ("A") is a dependency of the
    start service ("S") whose own dependencies were never added, the walk
    stops there: "B" is reachable from "S", was not in the set before, and is
    still not in it after the call. *)
Lemma addTransitiveDeps_closure_counterexample :
  exists set', addTransitiveDeps (closure_fuel ex_atd_graph) "S" ex_atd_graph ex_atd_set = Some set' /\
    set' "B" = false /\ ex_atd_set "B" = false /\ reach_plus ex_atd_graph "S" "B".
Proof.
  eexists. split; [vm_compute; reflexivity|].
  split; [reflexivity|split; [reflexivity|]].
  apply t_trans with "A"; apply t_step; unfold edge; simpl; auto.
Qed.

(** ** Association lists *)

Lemma amap_lookup_insert {V : Type} k (v : V) m n :
  amap_lookup n (amap_insert k v m) = if String.eqb k n then Some v else amap_lookup n m.
Proof.
  induction m as [|[k' v'] m IH]; simpl.
  - destruct (String.eqb_spec k n); reflexivity.
  - destruct (String.eqb_spec k' k) as [Hk|Hk]; simpl.
    + subst k'. destruct (String.eqb_spec k n); reflexivity.
    + rewrite IH. destruct (String.eqb_spec k' n) as [Hn|Hn]; [subst n|reflexivity].
      destruct (String.eqb_spec k k'); [congruence|reflexivity].
Qed.

(** ** Bucketizer *)

Lemma bucket_step_keeps union final service k b svc :
  amap_lookup k final = Some b -> In svc b ->
  exists b', amap_lookup k (bucket_step union final service) = Some b' /\ In svc b'.
Proof.
  intros Hk Hin. unfold bucket_step. cbv zeta. rewrite amap_lookup_insert.
  match goal with |- context [String.eqb ?r k] => destruct (String.eqb_spec r k) as [Heq|Hne] end;
    [|eauto].
  rewrite Heq, Hk. exists (b ++ [service]). split; [reflexivity|apply in_or_app; now left].
Qed.

Lemma bucket_step_adds union final service :
  exists b, amap_lookup (match amap_lookup (DeployDependency.ServiceName service) union with
                         | Some r => r | None => "" end) (bucket_step union final service) = Some b
            /\ In service b.
Proof.
  unfold bucket_step. cbv zeta. rewrite amap_lookup_insert, eqb_refl_str.
  eexists. split; [reflexivity|apply in_or_app; right; now left].
Qed.

Lemma bucket_fold_keeps union order final k b svc :
  amap_lookup k final = Some b -> In svc b ->
  exists b', amap_lookup k (fold_left (bucket_step union) order final) = Some b' /\ In svc b'.
Proof.
  revert final b. induction order as [|service order IH]; simpl; intros final b Hk Hin; [eauto|].
  destruct (bucket_step_keeps union final service k b svc Hk Hin) as [b' [Hk' Hin']].
  exact (IH _ _ Hk' Hin').
Qed.

Lemma finalDeploymentOrder_bucket order union svc :
  In svc order ->
  exists b, amap_lookup (match amap_lookup (DeployDependency.ServiceName svc) union with
                         | Some r => r | None => "" end) (finalDeploymentOrder order union) = Some b
            /\ In svc b.
Proof.
  unfold finalDeploymentOrder. generalize (@nil (string * list DeployDependency.DeployDependency)).
  induction order as [|service order IH]; simpl; intros final Hin; [contradiction|].
  destruct Hin as [<-|Hin]; [|exact (IH _ Hin)].
  destruct (bucket_step_adds union final service) as [b [Hk Hb]].
  exact (bucket_fold_keeps union order _ _ b service Hk Hb).
Qed.

(** ** Resolver *)

Lemma find_app {A : Type} (f : A -> bool) l m :
  find f (l ++ m) = match find f l with Some x => Some x | None => find f m end.
Proof. induction l as [|x l IH]; simpl; [reflexivity|]. destruct (f x); auto. Qed.

Lemma buildOverrideMap_lookup os n :
  amap_lookup n (buildOverrideMap os) = last_override os n.
Proof.
  unfold buildOverrideMap, last_override.
  assert (H : forall m, amap_lookup n (fold_left (fun m o => amap_insert (Override.ServiceName o) o m) os m)
            = match find (fun o => String.eqb (Override.ServiceName o) n) (rev os) with
              | Some o => Some o | None => amap_lookup n m end).
  { induction os as [|o os IH]; intros m; simpl; [reflexivity|].
    rewrite IH, find_app, amap_lookup_insert. simpl.
    destruct (find _ (rev os)); [reflexivity|].
    destruct (String.eqb (Override.ServiceName o) n); reflexivity. }
  rewrite H. simpl. destruct (find _ (rev os)); reflexivity.
Qed.

Lemma applyOverride_name omap svc :
  DeployableService.ServiceName (applyOverride omap svc) = DeployableService.ServiceName svc.
Proof. unfold applyOverride. destruct (amap_lookup _ omap); reflexivity. Qed.

Lemma buildFinalList_names order omap set :
  map DeployableService.ServiceName (buildFinalList order omap set)
  = filter set (map DeployableService.ServiceName order).
Proof.
  induction order as [|svc order IH]; simpl; [reflexivity|].
  destruct (set (DeployableService.ServiceName svc)); simpl; [rewrite applyOverride_name|]; congruence.
Qed.

Lemma buildFinalList_from order omap set s :
  In s (buildFinalList order omap set) ->
  exists m, In m order /\ set (DeployableService.ServiceName m) = true /\ s = applyOverride omap m.
Proof.
  induction order as [|svc order IH]; simpl; [tauto|].
  destruct (set (DeployableService.ServiceName svc)) eqn:E.
  - intros [<-|H]; [exists svc; auto|].
    destruct (IH H) as [m [Hm Hr]]. exists m; auto.
  - intros H. destruct (IH H) as [m [Hm Hr]]. exists m; auto.
Qed.

Lemma filter_subseq {A : Type} (f : A -> bool) l : subseq (filter f l) l.
Proof.
  induction l as [|x l IH]; simpl; [constructor|].
  destruct (f x); constructor; exact IH.
Qed.

Lemma resolve_some master local final :
  resolve master local = Some final ->
  exists set2, final = buildFinalList (MasterManifest.DeploymentOrder master)
                         (buildOverrideMap (LocalConfig.DependencyOverrides local))
                         (applySkips (buildOverrideMap (LocalConfig.DependencyOverrides local)) set2).
Proof.
  unfold resolve. cbv zeta.
  destruct (negb _); [discriminate|].
  destruct (addTransitiveDeps _ _ _ _); [|discriminate].
  destruct (forceDeploy _ _ _ _); [|discriminate].
  intros H. injection H as <-. eauto.
Qed.

Lemma forceDeploy_terminates graph overrides set :
  exists set', forceDeploy (closure_fuel graph) graph overrides set = Some set'.
Proof.
  revert set. induction overrides as [|[k o] overrides IH]; intros set; cbn [forceDeploy]; [eauto|].
  destruct (Override.ForceDeploy o); [|apply IH].
  destruct (addTransitiveDeps_terminates graph (Override.ServiceName o)
              (bmap_set set (Override.ServiceName o) true)) as [s [-> _]].
  apply IH.
Qed.

Lemma applySkips_spec overrides set x :
  applySkips overrides set x = set x && negb (skipped overrides x).
Proof.
  unfold skipped. revert set. induction overrides as [|[k o] overrides IH]; intros set; simpl.
  - now rewrite andb_true_r.
  - rewrite IH. destruct (Override.Skip o); simpl; [|reflexivity].
    destruct (String.eqb_spec (Override.ServiceName o) x) as [<-|Hne]; simpl.
    + rewrite bmap_set_same, andb_false_r. reflexivity.
    + rewrite bmap_set_other by congruence. reflexivity.
Qed.

Lemma root_in_master master root :
  In root (map DeployableService.ServiceName (MasterManifest.DeploymentOrder master)) ->
  existsb (fun svc => String.eqb (DeployableService.ServiceName svc) root)
    (MasterManifest.DeploymentOrder master) = true.
Proof.
  intros H. apply existsb_exists. apply in_map_iff in H as [svc [Hn Hin]].
  exists svc. split; [exact Hin|]. subst root. apply eqb_refl_str.
Qed.

(** C4: the final plan of [resolve] is a subsequence of the master
    deployment order (by service name): every service of the plan is in
    the master order, and retained services keep their master order. *)
Theorem resolve_subsequence master local final :
  resolve master local = Some final ->
  subseq (map DeployableService.ServiceName final)
         (map DeployableService.ServiceName (MasterManifest.DeploymentOrder master)).
Proof.
  intros H. destruct (resolve_some master local final H) as [set2 ->].
  rewrite buildFinalList_names. apply filter_subseq.
Qed.

(** C5 (as it holds): when the root service is in the master list, [resolve]
    succeeds with the plan read from the deploy-set built by the closure and
    force-deploy steps, from which the skip step removes exactly the
    services named by a skip override and nothing else (their dependents
    stay); no warning is part of the result. *)
Theorem resolve_skip_exact master local :
  In (LocalConfig.ServiceName local)
     (map DeployableService.ServiceName (MasterManifest.DeploymentOrder master)) ->
  let graph := MasterManifest.DependencyAdjacencyList master in
  let omap := buildOverrideMap (LocalConfig.DependencyOverrides local) in
  exists set1 set2,
    addTransitiveDeps (closure_fuel graph) (LocalConfig.ServiceName local) graph
      (bmap_set bmap_empty (LocalConfig.ServiceName local) true) = Some set1 /\
    forceDeploy (closure_fuel graph) graph omap set1 = Some set2 /\
    resolve master local
      = Some (buildFinalList (MasterManifest.DeploymentOrder master) omap (applySkips omap set2)) /\
    (forall x, applySkips omap set2 x = set2 x && negb (skipped omap x)).
Proof.
  intros Hroot graph omap.
  destruct (addTransitiveDeps_terminates graph (LocalConfig.ServiceName local)
              (bmap_set bmap_empty (LocalConfig.ServiceName local) true)) as [set1 [H1 _]].
  destruct (forceDeploy_terminates graph omap set1) as [set2 H2].
  exists set1, set2. split; [exact H1|split; [exact H2|split]].
  - unfold resolve. cbv zeta. fold graph omap.
    rewrite (root_in_master master _ Hroot). simpl negb. cbv iota. rewrite H1, H2. reflexivity.
  - intros x. apply applySkips_spec.
Qed.

(** C5 as stated fails: with "B" skipped, [resolve] returns a plain plan in
    which the retained "A" still lists "B" among its dependencies while "B"
    itself is gone; nothing else (no warning) is returned with it. *)
Lemma resolve_skip_no_warning_counterexample :
  resolve ex_master ex_local_skip_B = Some [ex_svc "C" []; ex_svc "A" ["B"]] /\
  In "B" (DeployableService.DependsOn (ex_svc "A" ["B"])) /\
  option_map Override.Skip (last_override (LocalConfig.DependencyOverrides ex_local_skip_B) "B")
    = Some true /\
  ~ In "B" (map DeployableService.ServiceName [ex_svc "C" []; ex_svc "A" ["B"]]).
Proof.
  split; [reflexivity|split; [simpl; auto|split; [reflexivity|]]].
  simpl. intros [H|[H|[]]]; discriminate.
Qed.

(** C6 as stated fails: a service with no entry in the union map makes no
    error; it is grouped under the empty root [""]. *)
Lemma finalDeploymentOrder_unknown_root_counterexample :
  finalDeploymentOrder [ex_dep "A"] [] = [("", [ex_dep "A"])].
Proof. reflexivity. Qed.

(** C6 (as it holds): the bucketizer never fails; a service of the order
    with no entry in the union map lands in the bucket of the empty root
    [""], the Go zero value of [union[serviceName]]. *)
Theorem finalDeploymentOrder_missing_root order union svc :
  In svc order -> amap_lookup (DeployDependency.ServiceName svc) union = None ->
  exists b, amap_lookup "" (finalDeploymentOrder order union) = Some b /\ In svc b.
Proof.
  intros Hin Hn. pose proof (finalDeploymentOrder_bucket order union svc Hin) as H.
  rewrite Hn in H. exact H.
Qed.

(** C7: each service of the final plan comes from a master entry with the
    same name, repository, dependencies and index; with no override
    directive (the last one naming it) its branch, manifest and devLocal
    are the master's, and with one each of these fields is the override's
    value exactly when that value is non-empty, the master's otherwise. *)
Theorem resolve_field_overrides master local final s :
  resolve master local = Some final -> In s final ->
  exists m, In m (MasterManifest.DeploymentOrder master) /\
    DeployableService.ServiceName s = DeployableService.ServiceName m /\
    DeployableService.Repository s = DeployableService.Repository m /\
    DeployableService.DependsOn s = DeployableService.DependsOn m /\
    DeployableService.OriginalIdx s = DeployableService.OriginalIdx m /\
    match last_override (LocalConfig.DependencyOverrides local) (DeployableService.ServiceName m) with
    | None =>
        DeployableService.Branch s = DeployableService.Branch m /\
        DeployableService.Manifest s = DeployableService.Manifest m /\
        DeployableService.DevLocal s = DeployableService.DevLocal m
    | Some o =>
        (Override.Branch o = "" -> DeployableService.Branch s = DeployableService.Branch m) /\
        (Override.Branch o <> "" -> DeployableService.Branch s = Override.Branch o) /\
        (Override.ManifestPath o = "" -> DeployableService.Manifest s = DeployableService.Manifest m) /\
        (Override.ManifestPath o <> "" -> DeployableService.Manifest s = Override.ManifestPath o) /\
        (Override.DevLocal o = "" -> DeployableService.DevLocal s = DeployableService.DevLocal m) /\
        (Override.DevLocal o <> "" -> DeployableService.DevLocal s = Override.DevLocal o)
    end.
Proof.
  intros H Hs. destruct (resolve_some master local final H) as [set2 ->].
  destruct (buildFinalList_from _ _ _ s Hs) as [m [Hm [_ ->]]].
  exists m. split; [exact Hm|].
  unfold applyOverride. rewrite buildOverrideMap_lookup.
  destruct (last_override _ _) as [o|]; simpl; [|tauto].
  repeat split; intros E;
    first [ rewrite E; reflexivity
          | match goal with
            | |- context [String.eqb ?f ""] =>
                destruct (String.eqb_spec f "") as [E'|]; [contradiction|reflexivity]
            end ].
Qed.

(** ** Witnesses *)

Lemma resolve_subsequence_witness :
  resolve ex_master ex_local_skip_B = Some [ex_svc "C" []; ex_svc "A" ["B"]] /\
  subseq ["C"; "A"] ["C"; "B"; "A"; "Y"; "X"].
Proof.
  split; [reflexivity|].
  exact (resolve_subsequence ex_master ex_local_skip_B [ex_svc "C" []; ex_svc "A" ["B"]] eq_refl).
Defined.

Lemma resolve_skip_exact_witness :
  In "A" (map DeployableService.ServiceName (MasterManifest.DeploymentOrder ex_master)) /\
  exists set2,
    resolve ex_master ex_local_skip_B
      = Some (buildFinalList (MasterManifest.DeploymentOrder ex_master)
                (buildOverrideMap (LocalConfig.DependencyOverrides ex_local_skip_B))
                (applySkips (buildOverrideMap (LocalConfig.DependencyOverrides ex_local_skip_B)) set2)) /\
    applySkips (buildOverrideMap (LocalConfig.DependencyOverrides ex_local_skip_B)) set2 "B" = false /\
    applySkips (buildOverrideMap (LocalConfig.DependencyOverrides ex_local_skip_B)) set2 "A" = set2 "A".
Proof.
  assert (Hin : In "A" (map DeployableService.ServiceName (MasterManifest.DeploymentOrder ex_master)))
    by (simpl; auto).
  split; [exact Hin|].
  destruct (resolve_skip_exact ex_master ex_local_skip_B Hin) as [set1 [set2 [_ [_ [Hr Hs]]]]].
  exists set2. split; [exact Hr|split].
  - rewrite Hs. apply andb_false_r.
  - rewrite Hs. apply andb_true_r.
Defined.

Lemma finalDeploymentOrder_missing_root_witness :
  In (ex_dep "A") [ex_dep "B"; ex_dep "A"] /\
  amap_lookup (DeployDependency.ServiceName (ex_dep "A")) [("B", "B")] = None /\
  exists b, amap_lookup "" (finalDeploymentOrder [ex_dep "B"; ex_dep "A"] [("B", "B")]) = Some b
            /\ In (ex_dep "A") b.
Proof.
  assert (H1 : In (ex_dep "A") [ex_dep "B"; ex_dep "A"]) by (simpl; auto).
  assert (H2 : amap_lookup (DeployDependency.ServiceName (ex_dep "A")) [("B", "B")] = None)
    by reflexivity.
  split; [exact H1|split; [exact H2|]].
  exact (finalDeploymentOrder_missing_root _ _ _ H1 H2).
Defined.

Lemma resolve_field_overrides_witness :
  resolve ex_master ex_local_branch_B = Some [ex_svc "C" []; ex_B_feature; ex_svc "A" ["B"]] /\
  In ex_B_feature [ex_svc "C" []; ex_B_feature; ex_svc "A" ["B"]] /\
  exists m, In m (MasterManifest.DeploymentOrder ex_master) /\
    DeployableService.ServiceName m = "B" /\
    DeployableService.Manifest m = "m/B".
Proof.
  assert (Hr : resolve ex_master ex_local_branch_B
               = Some [ex_svc "C" []; ex_B_feature; ex_svc "A" ["B"]]) by reflexivity.
  assert (Hs : In ex_B_feature [ex_svc "C" []; ex_B_feature; ex_svc "A" ["B"]]) by (simpl; auto).
  split; [exact Hr|split; [exact Hs|]].
  destruct (resolve_field_overrides ex_master ex_local_branch_B _ _ Hr Hs)
    as [m [Hm [Hn [_ [_ [_ Ho]]]]]].
  exists m. split; [exact Hm|]. simpl in Hn. split; [congruence|].
  rewrite <- Hn in Ho. simpl in Ho. destruct Ho as [_ [_ [Hman _]]].
  symmetry. exact (Hman eq_refl).
Defined.

(** ** strings.TrimSpace *)

Ltac bool_cases :=
  repeat match goal with
         | |- context [if ?b then _ else _] => destruct b eqn:?
         end.

Lemma trim_left_id l : starts_space l = false -> trim_left l = l.
Proof.
  destruct l as [|a [|b [|c l]]]; simpl; intros H; [reflexivity| | |];
    repeat rewrite orb_false_iff in H; bool_cases; intuition congruence.
Qed.

Lemma trim_left_starts l : starts_space (trim_left l) = false.
Proof.
  remember (length l) as n eqn:E. assert (Hn : length l <= n) by lia. clear E.
  revert l Hn. induction n as [|n IH]; intros l Hn.
  - destruct l; [reflexivity|simpl in Hn; lia].
  - destruct l as [|a l1]; [reflexivity|]. simpl in Hn |- *.
    destruct (space1 a) eqn:E1; [apply IH; lia|].
    destruct l1 as [|b l2]; [simpl; now rewrite E1|]. simpl in Hn.
    destruct (space2 a b) eqn:E2; [apply IH; lia|].
    destruct l2 as [|c l3]; [simpl; now rewrite E1, E2|]. simpl in Hn.
    destruct (space3 a b c) eqn:E3; [apply IH; lia|]. simpl. now rewrite E1, E2, E3.
Qed.

Lemma starts_space_app l q : starts_space l = true -> starts_space (l ++ q) = true.
Proof.
  destruct l as [|a [|b [|c l]]]; simpl; intros H; [discriminate| | |];
    destruct (space1 a); simpl in *; try reflexivity.
  - discriminate.
  - destruct (space2 a b); [reflexivity|discriminate].
  - destruct (space2 a b); [reflexivity|exact H].
Qed.

Lemma trim_right_rev_id l : ends_space_rev l = false -> trim_right_rev l = l.
Proof.
  destruct l as [|a [|b [|c l]]]; simpl; intros H; [reflexivity| | |];
    repeat rewrite orb_false_iff in H; bool_cases; intuition congruence.
Qed.

Lemma trim_right_rev_spec l :
  ends_space_rev (trim_right_rev l) = false /\ exists p, l = p ++ trim_right_rev l.
Proof.
  remember (length l) as n eqn:E. assert (Hn : length l <= n) by lia. clear E.
  revert l Hn. induction n as [|n IH]; intros l Hn.
  - destruct l; [split; [reflexivity|now exists []]|simpl in Hn; lia].
  - destruct l as [|c l1]; [split; [reflexivity|now exists []]|]. simpl in Hn |- *.
    destruct (space1 c) eqn:E1.
    { destruct (IH l1 ltac:(lia)) as [H1 [p Hp]].
      split; [exact H1|exists (c :: p); simpl; now rewrite <- Hp]. }
    destruct l1 as [|b l2]; [simpl; rewrite E1; split; [reflexivity|now exists []]|]. simpl in Hn.
    destruct (space2 b c) eqn:E2.
    { destruct (IH l2 ltac:(lia)) as [H1 [p Hp]].
      split; [exact H1|exists (c :: b :: p); simpl; now rewrite <- Hp]. }
    destruct l2 as [|a l3]; [simpl; rewrite E1, E2; split; [reflexivity|now exists []]|].
    simpl in Hn.
    destruct (space3 a b c) eqn:E3.
    { destruct (IH l3 ltac:(lia)) as [H1 [p Hp]].
      split; [exact H1|exists (c :: b :: a :: p); simpl; now rewrite <- Hp]. }
    simpl. rewrite E1, E2, E3. split; [reflexivity|now exists []].
Qed.

Lemma TrimSpace_idem s : TrimSpace (TrimSpace s) = TrimSpace s.
Proof.
  unfold TrimSpace. rewrite list_ascii_of_string_of_list_ascii.
  set (A := trim_left (list_ascii_of_string s)).
  destruct (trim_right_rev_spec (rev A)) as [HT [p Hp]].
  set (T := trim_right_rev (rev A)) in *.
  assert (HA : A = rev T ++ rev p) by (rewrite <- rev_app_distr, <- Hp; now rewrite rev_involutive).
  assert (HS : starts_space (rev T) = false).
  { destruct (starts_space (rev T)) eqn:E; [|reflexivity].
    pose proof (trim_left_starts (list_ascii_of_string s)) as H. fold A in H.
    rewrite HA, (starts_space_app _ _ E) in H. discriminate. }
  rewrite (trim_left_id _ HS), rev_involutive, (trim_right_rev_id _ HT). reflexivity.
Qed.

(** ** Deployment-order generator *)

Lemma topoSort_cases g :
  (exists l, topoSort g = Sorted l) \/ (exists n, topoSort g = CycleAt n /\ reach_plus g n n).
Proof.
  destruct (topoSort g) as [l|n|] eqn:H; [left; eauto|right; eauto using topoSort_cycle|].
  exfalso. exact (topoSort_terminates g H).
Qed.

Lemma topoSort_sorted_acyclic g l : topoSort g = Sorted l -> acyclic g.
Proof.
  intros H x Hx. destruct (reach_plus_first_edge g x x Hx) as [y Hy].
  destruct (topoSort_sorted g l H) as [_ [_ [Hk _]]].
  destruct (topoSort_sorted_reach g l x x H Hx (Hk x (lookup_deps_key g x y Hy))) as [_ Hlt].
  lia.
Qed.

Lemma deployDependencyOf_name db svcs deps s :
  DeployDependency.ServiceName (deployDependencyOf db svcs deps s) = s.
Proof. reflexivity. Qed.

Lemma generateDeploymentOrder_some m ds :
  generateDeploymentOrder m = Some ds ->
  topoSort (Manifest.DependencyAdjacencyList m) = Sorted (map DeployDependency.ServiceName ds) /\
  forall d, In d ds ->
    d = deployDependencyOf (Manifest.DefaultBranch m) (Manifest.Services m)
          (lookup_deps (Manifest.DependencyAdjacencyList m) (DeployDependency.ServiceName d))
          (DeployDependency.ServiceName d).
Proof.
  unfold generateDeploymentOrder. cbv zeta.
  destruct (topoSort _) as [l| |] eqn:H; try discriminate.
  intros E. injection E as <-. rewrite map_map. simpl. rewrite map_id. split; [reflexivity|].
  intros d Hd. apply in_map_iff in Hd as [s [<- _]]. reflexivity.
Qed.

(** The deployment order written by [main] of src/topological-sort.go for
    an acyclic graph: one record per sorted service, no name twice, every
    key of the adjacency list present, every record's [DependsOn] the
    graph's list for it (nil for a name with no entry), and each of those
    dependencies present as an earlier record. *)
Theorem generateDeploymentOrder_ordered m :
  let graph := Manifest.DependencyAdjacencyList m in
  acyclic graph ->
  exists ds, generateDeploymentOrder m = Some ds /\
    let names := map DeployDependency.ServiceName ds in
    NoDup names /\
    (forall k, In k (map fst graph) -> In k names) /\
    (forall d, In d ds ->
       In (DeployDependency.ServiceName d) (nodes graph) /\
       DeployDependency.DependsOn d = lookup_deps graph (DeployDependency.ServiceName d) /\
       forall dep, In dep (DeployDependency.DependsOn d) ->
         In dep names /\ index_of dep names < index_of (DeployDependency.ServiceName d) names).
Proof.
  intros graph Hac.
  destruct (topoSort_cases graph) as [[l Hl]|[n [_ Hn]]]; [|exfalso; exact (Hac n Hn)].
  assert (Hs : generateDeploymentOrder m = Some (map (fun service =>
                 deployDependencyOf (Manifest.DefaultBranch m) (Manifest.Services m)
                   (lookup_deps graph service) service) l))
    by (unfold generateDeploymentOrder; cbv zeta; fold graph; now rewrite Hl).
  eexists. split; [exact Hs|].
  destruct (generateDeploymentOrder_some m _ Hs) as [Hsort Hd]. fold graph in Hsort, Hd.
  destruct (topoSort_sorted graph _ Hsort) as [Hnd [Hn [Hk Ho]]].
  cbv zeta. split; [exact Hnd|split; [exact Hk|]].
  intros d Hin. pose proof (Hd d Hin) as Ed.
  assert (Hname : In (DeployDependency.ServiceName d) (map DeployDependency.ServiceName
            (map (fun service => deployDependencyOf (Manifest.DefaultBranch m) (Manifest.Services m)
                   (lookup_deps graph service) service) l))) by (now apply in_map).
  split; [exact (Hn _ Hname)|].
  assert (Hdeps : DeployDependency.DependsOn d = lookup_deps graph (DeployDependency.ServiceName d))
    by (rewrite Ed at 1; reflexivity).
  split; [exact Hdeps|].
  intros dep Hdep. rewrite Hdeps in Hdep. exact (Ho _ dep Hname Hdep).
Qed.

(** [main] of src/topological-sort.go stops with [log.Fatalf] and writes no
    deployment order exactly when the dependency graph has a cycle. *)
Theorem generateDeploymentOrder_fails_iff_cycle m :
  generateDeploymentOrder m = None <->
  exists x, reach_plus (Manifest.DependencyAdjacencyList m) x x.
Proof.
  unfold generateDeploymentOrder. cbv zeta.
  destruct (topoSort_cases (Manifest.DependencyAdjacencyList m)) as [[l Hl]|[n [Hn Hr]]].
  - rewrite Hl. split; [discriminate|].
    intros [x Hx]. exfalso. exact (topoSort_sorted_acyclic _ l Hl x Hx).
  - rewrite Hn. split; [intros _; eauto|reflexivity].
Qed.

(** Every [Repository] of the generated deployment order is trimmed:
    trimming it again with [strings.TrimSpace] changes nothing. *)
Theorem generateDeploymentOrder_repository_trimmed m ds d :
  generateDeploymentOrder m = Some ds -> In d ds ->
  TrimSpace (DeployDependency.Repository d) = DeployDependency.Repository d.
Proof.
  intros H Hd. destruct (generateDeploymentOrder_some m ds H) as [_ E].
  rewrite (E d Hd). apply TrimSpace_idem.
Qed.

(** The defaults of the generated records: a service with no entry in
    [Services] gets empty [Repository], [Manifest] and [DevLocal] and the
    manifest's [DefaultBranch]; and no record has an empty [Branch] when
    [DefaultBranch] is non-empty. *)
Theorem generateDeploymentOrder_defaults m ds d :
  generateDeploymentOrder m = Some ds -> In d ds ->
  (Manifest.DefaultBranch m <> "" -> DeployDependency.Branch d <> "") /\
  (amap_lookup (DeployDependency.ServiceName d) (Manifest.Services m) = None ->
   DeployDependency.Repository d = "" /\ DeployDependency.Manifest d = "" /\
   DeployDependency.DevLocal d = "" /\ DeployDependency.Branch d = Manifest.DefaultBranch m).
Proof.
  intros H Hd. destruct (generateDeploymentOrder_some m ds H) as [_ E].
  rewrite (E d Hd). unfold deployDependencyOf. cbv zeta. simpl DeployDependency.ServiceName.
  split.
  - intros Hdb. simpl.
    match goal with |- context [String.eqb ?b ""] =>
      destruct (String.eqb_spec b "") as [_|Hne]; [exact Hdb|exact Hne] end.
  - intros Hn. rewrite Hn. repeat split; reflexivity.
Qed.

(** [main] of src/topological-sort/topological-sort.go, over a
    [map[string]DependsOn] manifest, writes the same deployment order as
    [main] of src/topological-sort.go on the same manifest. *)
Theorem DependsOnMain_agrees m :
  DependsOnMain.generateDeploymentOrder (DependsOnMain.wrapManifest m) = generateDeploymentOrder m.
Proof.
  unfold DependsOnMain.generateDeploymentOrder, generateDeploymentOrder. cbv zeta. simpl.
  assert (Ht : TopoSortDependsOn.topoSort (TopoSortDependsOn.wrap (Manifest.DependencyAdjacencyList m))
               = topoSort (Manifest.DependencyAdjacencyList m)).
  { unfold TopoSortDependsOn.topoSort, topoSort. rewrite fuel_bound_wrap.
    replace (map fst (TopoSortDependsOn.wrap (Manifest.DependencyAdjacencyList m)))
      with (map fst (Manifest.DependencyAdjacencyList m))
      by (unfold TopoSortDependsOn.wrap; now rewrite map_map).
    apply sort_from_wrap. }
  rewrite Ht. destruct (topoSort _); [|reflexivity|reflexivity].
  f_equal. apply map_ext. intros s. now rewrite lookup_wrap.
Qed.

(** ** GetGroups and the union-find main *)

Lemma GetGroups_spec ns R d keys : forall p groups,
  UFInv ns p R d -> incl keys ns ->
  exists groups', GetGroups (length ns) keys p groups = Some groups' /\
    forall x, amap_lookup x groups' =
              if in_dec string_dec x keys then Some (R x) else amap_lookup x groups.
Proof.
  induction keys as [|node keys IH]; intros p groups I Hk; cbn [GetGroups].
  - exists groups. split; [reflexivity|]. intros x. reflexivity.
  - assert (Hn : In node ns) by (apply Hk; now left).
    assert (Hb : d node < length ns)
      by (pose proof (uf_bound ns p R d I node Hn); pose proof (class_size_le ns R (R node)); lia).
    destruct (Find_spec ns (length ns) p R d node I Hn Hb) as [p' [-> Hc]].
    destruct (IH p' (amap_insert node (R node) groups) (UFInv_compress ns p p' R d I Hc))
      as [groups' [-> Hl]]; [intros z Hz; apply Hk; now right|].
    exists groups'. split; [reflexivity|]. intros x. rewrite Hl, amap_lookup_insert.
    destruct (in_dec string_dec x keys) as [Hx|Hx];
      destruct (in_dec string_dec x (node :: keys)) as [Hx'|Hx']; simpl in Hx'.
    + reflexivity.
    + exfalso. tauto.
    + destruct (String.eqb_spec node x) as [->|Hne]; [reflexivity|]. exfalso. intuition congruence.
    + destruct (String.eqb_spec node x) as [->|Hne]; [exfalso; tauto|reflexivity].
Qed.

Lemma bmap_set_true (s : bmap) k x : bmap_set s k true x = true <-> s x = true \/ x = k.
Proof.
  unfold bmap_set. destruct (String.eqb_spec x k) as [->|Hne]; [tauto|]. intuition congruence.
Qed.

Lemma allServices_spec cfg x :
  UnionFindMain.allServices cfg x = true <->
  In x (map fst cfg) \/ exists p, In p cfg /\ In x (UnionFindMain.DependsOn (snd p)).
Proof.
  unfold UnionFindMain.allServices.
  assert (Hdeps : forall deps (s : bmap),
            fold_left (fun s dep => bmap_set s dep true) deps s x = true <-> s x = true \/ In x deps).
  { induction deps as [|dep deps IH]; intros s; simpl; [tauto|].
    rewrite IH, bmap_set_true. intuition congruence. }
  assert (Hout : forall (c : UnionFindMain.Config) (s : bmap),
            fold_left (fun s p => fold_left (fun s dep => bmap_set s dep true)
                                    (UnionFindMain.DependsOn (snd p)) s) c s x = true <->
            s x = true \/ exists p, In p c /\ In x (UnionFindMain.DependsOn (snd p))).
  { induction c as [|q c IH]; intros s; simpl.
    - split; [tauto|]. intros [H|[p [[] _]]]. exact H.
    - rewrite IH, Hdeps. split.
      + intros [[H|H]|[p [Hp Hx]]]; [tauto|right; exists q; tauto|right; exists p; tauto].
      + intros [H|[p [[<-|Hp] Hx]]]; [tauto|left; now right|right; exists p; tauto]. }
  assert (Hkeys : forall (c : UnionFindMain.Config) (s : bmap),
            fold_left (fun s p => bmap_set s (fst p) true) c s x = true <-> s x = true \/ In x (map fst c)).
  { induction c as [|q c IH]; intros s; simpl; [tauto|].
    rewrite IH, bmap_set_true. intuition congruence. }
  rewrite Hout, Hkeys. unfold bmap_empty. intuition discriminate.
Qed.

Lemma unionPairs_in cfg u v :
  In (u, v) (UnionFindMain.unionPairs cfg) ->
  exists p, In p cfg /\ fst p = u /\ In v (UnionFindMain.DependsOn (snd p)).
Proof.
  unfold UnionFindMain.unionPairs. intros H. apply in_concat in H as [l [Hl Hin]].
  apply in_map_iff in Hl as [p [<- Hp]]. apply in_map_iff in Hin as [v' [E Hv]].
  injection E as <- <-. exists p. auto.
Qed.

(** [main] of src/union-find/union-find.go, up to the marshalled [groups]:
    for any iteration order of [allServices] and of [uf.parent], it never
    fails; [groups] has exactly the services as keys; each service is
    mapped to a representative, a service that is its own representative;
    and two services get the same representative exactly when the
    dependency edges, taken in either direction, connect them. *)
Theorem UnionFindMain_run_groups cfg serviceList parentKeys :
  (forall x, In x serviceList <-> UnionFindMain.allServices cfg x = true) ->
  (forall x, In x parentKeys <-> In x serviceList) ->
  exists groups, UnionFindMain.run cfg serviceList parentKeys = Some groups /\
    (forall x, In x serviceList <-> exists r, amap_lookup x groups = Some r) /\
    (forall x r, amap_lookup x groups = Some r -> In r serviceList /\ amap_lookup r groups = Some r) /\
    (forall x y rx ry, amap_lookup x groups = Some rx -> amap_lookup y groups = Some ry ->
       (rx = ry <-> connected (UnionFindMain.unionPairs cfg) x y)).
Proof.
  intros Hs Hk. set (ns := serviceList).
  assert (Hpairs : forall x y, In (x, y) (UnionFindMain.unionPairs cfg) -> In x ns /\ In y ns).
  { intros x y H. destruct (unionPairs_in cfg x y H) as [p [Hp [<- Hy]]].
    split; apply Hs, allServices_spec; [left; now apply in_map|right; eauto]. }
  destruct (Unions_spec ns (UnionFindMain.unionPairs cfg) (InitialiseUnionFind ns)
              (fun z => z) (fun _ => 0) [] (UFInv_init ns) Hpairs)
    as [p [R [d [HU [I [Hsame Hconn]]]]]].
  { intros u v []. }
  { intros a b _ _ ->. apply rst_refl. }
  simpl in Hsame, Hconn.
  destruct (GetGroups_spec ns R d parentKeys p [] I) as [groups [HG Hl]].
  { intros z Hz. now apply Hk. }
  exists groups. split.
  { unfold UnionFindMain.run. cbv zeta. fold ns. rewrite HU. exact HG. }
  assert (Hlk : forall x r, amap_lookup x groups = Some r -> In x ns /\ r = R x).
  { intros x r H. rewrite Hl in H. destruct (in_dec string_dec x parentKeys) as [Hx|Hx];
      [|discriminate]. injection H as <-. split; [now apply Hk|reflexivity]. }
  split; [|split].
  - intros x. split.
    + intros Hx. exists (R x). rewrite Hl. destruct (in_dec string_dec x parentKeys) as [_|Hx'];
        [reflexivity|exfalso; apply Hx', Hk, Hx].
    + intros [r Hr]. exact (proj1 (Hlk x r Hr)).
  - intros x r Hr. destruct (Hlk x r Hr) as [Hx ->].
    assert (HRx : In (R x) ns) by exact (uf_root_in ns p R d I x Hx).
    split; [exact HRx|]. rewrite Hl. destruct (in_dec string_dec (R x) parentKeys) as [_|H'];
      [|exfalso; apply H', Hk, HRx].
    now rewrite (UFInv_R_idem ns p R d x I Hx).
  - intros x y rx ry Hx Hy. destruct (Hlk x rx Hx) as [Hxn ->]. destruct (Hlk y ry Hy) as [Hyn ->].
    split; [exact (Hconn x y Hxn Hyn)|]. apply connected_same_rep. exact Hsame.
Qed.

(** ** Bucketizer order *)

Lemma bucket_fold_lookup union order : forall final r,
  amap_lookup r (fold_left (bucket_step union) order final) =
  match amap_lookup r final,
        filter (fun s => String.eqb (match amap_lookup (DeployDependency.ServiceName s) union with
                                     | Some x => x | None => "" end) r) order with
  | None, [] => None
  | None, l => Some l
  | Some b, l => Some (b ++ l)
  end.
Proof.
  induction order as [|s order IH]; intros final r; simpl.
  - destruct (amap_lookup r final); [now rewrite app_nil_r|reflexivity].
  - rewrite IH. unfold bucket_step. cbv zeta. rewrite amap_lookup_insert.
    destruct (String.eqb (match amap_lookup (DeployDependency.ServiceName s) union with
                          | Some x => x | None => "" end) r) eqn:E.
    + apply String.eqb_eq in E. rewrite E.
      destruct (amap_lookup r final); [now rewrite <- app_assoc|reflexivity].
    + destruct (amap_lookup r final); reflexivity.
Qed.

(** The buckets of src/grouped-topo-sort/deployment-order.go: the bucket of a
    root holds exactly the services of the order whose [union] entry is that
    root ([""] for a service with no entry), in the order of the input; a
    root with no such service has no bucket. *)
Theorem finalDeploymentOrder_buckets order union r :
  amap_lookup r (finalDeploymentOrder order union) =
  match filter (fun s => String.eqb (match amap_lookup (DeployDependency.ServiceName s) union with
                                     | Some x => x | None => "" end) r) order with
  | [] => None
  | b => Some b
  end.
Proof.
  unfold finalDeploymentOrder. rewrite bucket_fold_lookup. simpl.
  destruct (filter _ order); reflexivity.
Qed.

(** ** Resolver: the deploy-set and the final plan *)

Lemma amap_insert_in {V : Type} k (v : V) m q :
  In q (amap_insert k v m) -> q = (k, v) \/ In q m.
Proof.
  induction m as [|[k' v'] m IH]; simpl; [intuition|].
  destruct (String.eqb k' k); simpl; intros [H|H]; auto. destruct (IH H); auto.
Qed.

Lemma amap_insert_nodup {V : Type} k (v : V) m :
  NoDup (map fst m) -> NoDup (map fst (amap_insert k v m)).
Proof.
  induction m as [|[k' v'] m IH]; simpl; intros Hn.
  - constructor; [intros []|constructor].
  - inversion Hn as [|? ? Hk' Hm]; subst.
    destruct (String.eqb_spec k' k) as [->|Hne]; simpl; [constructor; assumption|].
    constructor; [|exact (IH Hm)].
    intros Hin. apply in_map_iff in Hin as [[k0 v0] [E Hq]]. simpl in E. subst k0.
    destruct (amap_insert_in k v m _ Hq) as [E|Hq'].
    + injection E as E _. congruence.
    + apply Hk'. apply in_map_iff. exists (k', v0). auto.
Qed.

Lemma amap_lookup_in_nodup {V : Type} k (v : V) m :
  NoDup (map fst m) -> In (k, v) m -> amap_lookup k m = Some v.
Proof.
  induction m as [|[k' v'] m IH]; simpl; [tauto|]. intros Hn Hin.
  inversion Hn as [|? ? Hk' Hm]; subst.
  destruct Hin as [E|Hin].
  - injection E as -> ->. now rewrite eqb_refl_str.
  - destruct (String.eqb_spec k' k) as [->|_]; [|exact (IH Hm Hin)].
    exfalso. apply Hk'. apply in_map_iff. exists (k, v). auto.
Qed.

Lemma amap_lookup_in {V : Type} k (v : V) m :
  amap_lookup k m = Some v -> In (k, v) m.
Proof.
  induction m as [|[k' v'] m IH]; simpl; [discriminate|].
  destruct (String.eqb_spec k' k) as [->|_]; [intros H; injection H as ->; now left|].
  intros H. right. exact (IH H).
Qed.

Lemma buildOverrideMap_inv os :
  NoDup (map fst (buildOverrideMap os)) /\
  forall k o, In (k, o) (buildOverrideMap os) -> k = Override.ServiceName o.
Proof.
  unfold buildOverrideMap.
  assert (H : forall m, NoDup (map fst m) -> (forall k o, In (k, o) m -> k = Override.ServiceName o) ->
    NoDup (map fst (fold_left (fun m o => amap_insert (Override.ServiceName o) o m) os m)) /\
    forall k o, In (k, o) (fold_left (fun m o => amap_insert (Override.ServiceName o) o m) os m) ->
                k = Override.ServiceName o).
  { induction os as [|o os IH]; intros m Hn Hk; simpl; [auto|].
    apply IH; [now apply amap_insert_nodup|].
    intros k o' Hin. destruct (amap_insert_in _ _ _ _ Hin) as [E|Hin'].
    - injection E as -> ->. reflexivity.
    - exact (Hk k o' Hin'). }
  apply H; [constructor|intros k o []].
Qed.

Lemma last_override_name os n o :
  last_override os n = Some o -> Override.ServiceName o = n.
Proof.
  unfold last_override. intros H. apply find_some in H as [_ H]. now apply String.eqb_eq in H.
Qed.

(** The entries of the override map are exactly the last override of each
    named service, under its name. *)
Lemma buildOverrideMap_entries os k o :
  In (k, o) (buildOverrideMap os) <-> k = Override.ServiceName o /\ last_override os k = Some o.
Proof.
  destruct (buildOverrideMap_inv os) as [Hn Hk]. split.
  - intros Hin. split; [exact (Hk k o Hin)|].
    rewrite <- buildOverrideMap_lookup. exact (amap_lookup_in_nodup k o _ Hn Hin).
  - intros [_ Hl]. apply amap_lookup_in. now rewrite buildOverrideMap_lookup.
Qed.

Lemma skipped_buildOverrideMap os x :
  skipped (buildOverrideMap os) x = true <->
  exists o, last_override os x = Some o /\ Override.Skip o = true.
Proof.
  unfold skipped. rewrite existsb_exists. split.
  - intros [[k o] [Hin H]]. simpl in H. apply andb_prop in H as [Hs He].
    apply String.eqb_eq in He. apply buildOverrideMap_entries in Hin as [-> Hl].
    subst x. eauto.
  - intros [o [Hl Hs]]. exists (x, o). split.
    + apply buildOverrideMap_entries. split; [symmetry; exact (last_override_name os x o Hl)|exact Hl].
    + simpl. rewrite Hs, (last_override_name os x o Hl), eqb_refl_str. reflexivity.
Qed.

(** One closure walk from [f] over a closed set with [f] added. *)
Lemma atd_closed_step g (set : bmap) f :
  set_closed g set ->
  exists s, addTransitiveDeps (closure_fuel g) f g (bmap_set set f true) = Some s /\
    set_closed g s /\
    forall x, s x = true <-> set x = true \/ x = f \/ reach_plus g f x.
Proof.
  intros Hc.
  destruct (addTransitiveDeps_terminates g f (bmap_set set f true)) as [s [Hr [P1 [P2 [P3 P4]]]]].
  assert (Hsc : set_closed g s).
  { intros u v Hu Huv. destruct (string_dec u f) as [->|Hne]; [exact (P3 v Huv)|].
    destruct (bmap_set set f true u) eqn:Eu.
    - rewrite bmap_set_other in Eu by exact Hne. apply P1, bmap_set_true. left. exact (Hc u v Eu Huv).
    - exact (P4 u Hu Eu v Huv). }
  exists s. split; [exact Hr|split; [exact Hsc|]]. intros x. split.
  - intros Hx. destruct (P2 x Hx) as [H|H]; [|tauto]. apply bmap_set_true in H. tauto.
  - intros [H|[->|H]].
    + apply P1, bmap_set_true. now left.
    + apply P1, bmap_set_same.
    + apply (closed_set_reach g s f x Hsc H). apply P1, bmap_set_same.
Qed.

Lemma forceDeploy_spec g overrides : forall set,
  set_closed g set ->
  exists set', forceDeploy (closure_fuel g) g overrides set = Some set' /\ set_closed g set' /\
    forall x, set' x = true <-> set x = true \/
      exists k o, In (k, o) overrides /\ Override.ForceDeploy o = true /\
                  (x = Override.ServiceName o \/ reach_plus g (Override.ServiceName o) x).
Proof.
  induction overrides as [|[k o] overrides IH]; intros set Hc; cbn [forceDeploy].
  - exists set. split; [reflexivity|split; [exact Hc|]]. intros x.
    split; [tauto|]. intros [H|[k [o [[] _]]]]. exact H.
  - destruct (Override.ForceDeploy o) eqn:Ef.
    + destruct (atd_closed_step g set (Override.ServiceName o) Hc) as [s [-> [Hsc Hs]]].
      destruct (IH s Hsc) as [set' [Hr [Hc' Hx]]]. exists set'. split; [exact Hr|split; [exact Hc'|]].
      intros x. rewrite Hx, Hs. split.
      * intros [[H|H]|[k' [o' [Hin H]]]]; [tauto|right; exists k, o; simpl; tauto|].
        right. exists k', o'. simpl. tauto.
      * intros [H|[k' [o' [[E|Hin] [Hf H]]]]]; [tauto| |right; exists k', o'; tauto].
        injection E as -> ->. tauto.
    + destruct (IH set Hc) as [set' [Hr [Hc' Hx]]]. exists set'. split; [exact Hr|split; [exact Hc'|]].
      intros x. rewrite Hx. split.
      * intros [H|[k' [o' [Hin H]]]]; [tauto|right; exists k', o'; simpl; tauto].
      * intros [H|[k' [o' [[E|Hin] [Hf H]]]]]; [tauto| |right; exists k', o'; tauto].
        injection E as -> ->. congruence.
Qed.

Lemma root_closure g root :
  exists set1, addTransitiveDeps (closure_fuel g) root g (bmap_set bmap_empty root true) = Some set1 /\
    set_closed g set1 /\ forall x, set1 x = true <-> x = root \/ reach_plus g root x.
Proof.
  destruct (atd_closed_step g bmap_empty root) as [s [Hr [Hc Hs]]].
  { intros u v H. discriminate. }
  exists s. split; [exact Hr|split; [exact Hc|]]. intros x. rewrite Hs. unfold bmap_empty.
  intuition discriminate.
Qed.

(** [main] of src/unnamed/part_000: a successful run deploys exactly the
    services of the master order that are the root or reachable from it,
    or are a force-deployed service (by its last override) or reachable
    from one, and whose last override does not skip them. *)
Theorem resolve_members master local final :
  resolve master local = Some final ->
  let graph := MasterManifest.DependencyAdjacencyList master in
  let os := LocalConfig.DependencyOverrides local in
  let root := LocalConfig.ServiceName local in
  forall x, In x (map DeployableService.ServiceName final) <->
    In x (map DeployableService.ServiceName (MasterManifest.DeploymentOrder master)) /\
    (forall o, last_override os x = Some o -> Override.Skip o = false) /\
    (x = root \/ reach_plus graph root x \/
     exists f o, last_override os f = Some o /\ Override.ForceDeploy o = true /\
                 (x = f \/ reach_plus graph f x)).
Proof.
  intros H graph os root x.
  unfold resolve in H. cbv zeta in H. fold graph os root in H.
  destruct (negb _); [discriminate|].
  destruct (root_closure graph root) as [set1 [H1 [Hc1 Hs1]]]. rewrite H1 in H.
  destruct (forceDeploy_spec graph (buildOverrideMap os) set1 Hc1) as [set2 [H2 [_ Hs2]]].
  rewrite H2 in H. injection H as <-.
  rewrite buildFinalList_names, filter_In, applySkips_spec, andb_true_iff, negb_true_iff, Hs2, Hs1.
  assert (Hsk : skipped (buildOverrideMap os) x = false <->
                forall o, last_override os x = Some o -> Override.Skip o = false).
  { rewrite <- not_true_iff_false, skipped_buildOverrideMap. split.
    - intros Hn o Ho. apply not_true_iff_false. intros Hs. apply Hn. eauto.
    - intros Hf [o [Ho Hs]]. rewrite (Hf o Ho) in Hs. discriminate. }
  rewrite Hsk.
  assert (Hfd : (exists k o, In (k, o) (buildOverrideMap os) /\ Override.ForceDeploy o = true /\
                   (x = Override.ServiceName o \/ reach_plus graph (Override.ServiceName o) x)) <->
                (exists f o, last_override os f = Some o /\ Override.ForceDeploy o = true /\
                   (x = f \/ reach_plus graph f x))).
  { split.
    - intros [k [o [Hin Hr]]]. apply buildOverrideMap_entries in Hin as [-> Hl]. eauto.
    - intros [f [o [Hl Hr]]]. exists f, o. rewrite (last_override_name os f o Hl).
      split; [apply buildOverrideMap_entries; split; [symmetry; exact (last_override_name os f o Hl)|exact Hl]|exact Hr]. }
  rewrite Hfd. tauto.
Qed.

(** [main] of src/unnamed/part_000 stops ([log.Fatalf]) exactly when the
    root service of the local configuration is not in the master
    deployment order; otherwise it always produces a plan, whatever the
    graph (cycles included) and the overrides. *)
Theorem resolve_fails_iff_unknown_root master local :
  resolve master local = None <->
  ~ In (LocalConfig.ServiceName local)
       (map DeployableService.ServiceName (MasterManifest.DeploymentOrder master)).
Proof.
  split.
  - intros H Hin. unfold resolve in H. cbv zeta in H.
    rewrite (root_in_master master _ Hin) in H. simpl negb in H. cbv iota in H.
    destruct (root_closure (MasterManifest.DependencyAdjacencyList master) (LocalConfig.ServiceName local))
      as [set1 [H1 [Hc1 _]]].
    rewrite H1 in H.
    destruct (forceDeploy_spec (MasterManifest.DependencyAdjacencyList master)
                (buildOverrideMap (LocalConfig.DependencyOverrides local)) set1 Hc1) as [set2 [H2 _]].
    rewrite H2 in H. discriminate.
  - intros Hn. unfold resolve. cbv zeta.
    destruct (existsb _ _) eqn:E; [|reflexivity].
    exfalso. apply Hn. apply existsb_exists in E as [svc [Hin Heq]].
    apply String.eqb_eq in Heq. rewrite <- Heq. now apply in_map.
Qed.

(** ** Witnesses of the properties above *)

Lemma generateDeploymentOrder_ordered_witness :
  acyclic (Manifest.DependencyAdjacencyList ex_manifest) /\
  exists ds, generateDeploymentOrder ex_manifest = Some ds /\
    NoDup (map DeployDependency.ServiceName ds).
Proof.
  assert (Hac : acyclic (Manifest.DependencyAdjacencyList ex_manifest)).
  { apply (acyclic_by_rank ex_chain
             (fun u => if String.eqb u "A" then 2 else if String.eqb u "B" then 1 else 0)).
    intros u v H. unfold edge, ex_chain, lookup_deps in H.
    destruct (String.eqb_spec "A" u) as [<-|_]; [destruct H as [<-|[]]; simpl; lia|].
    destruct (String.eqb_spec "B" u) as [<-|_]; [destruct H as [<-|[]]; simpl; lia|].
    destruct (String.eqb "C" u); destruct H. }
  split; [exact Hac|].
  destruct (generateDeploymentOrder_ordered ex_manifest Hac) as [ds [Hds [Hnd _]]].
  exists ds. split; [exact Hds|exact Hnd].
Defined.

Lemma generateDeploymentOrder_repository_trimmed_witness :
  generateDeploymentOrder ex_manifest = Some ex_manifest_order /\
  TrimSpace "repo/A" = "repo/A".
Proof.
  assert (H : generateDeploymentOrder ex_manifest = Some ex_manifest_order) by reflexivity.
  split; [exact H|].
  exact (generateDeploymentOrder_repository_trimmed ex_manifest ex_manifest_order
           (DeployDependency.mkDeployDependency "A" "repo/A" "m/A" "d/A" ["B"] "main")
           H ltac:(simpl; auto)).
Defined.

Lemma generateDeploymentOrder_defaults_witness :
  generateDeploymentOrder ex_manifest = Some ex_manifest_order /\
  amap_lookup "C" (Manifest.Services ex_manifest) = None /\
  DeployDependency.Repository (DeployDependency.mkDeployDependency "C" "" "" "" [] "main") = "" /\
  DeployDependency.Branch (DeployDependency.mkDeployDependency "C" "" "" "" [] "main") = "main".
Proof.
  assert (H : generateDeploymentOrder ex_manifest = Some ex_manifest_order) by reflexivity.
  destruct (generateDeploymentOrder_defaults ex_manifest ex_manifest_order
              (DeployDependency.mkDeployDependency "C" "" "" "" [] "main") H ltac:(simpl; auto))
    as [_ Hnone].
  destruct (Hnone eq_refl) as [Hr [_ [_ Hb]]].
  split; [exact H|split; [reflexivity|split; [exact Hr|exact Hb]]].
Defined.

Lemma UnionFindMain_run_groups_witness :
  (forall x, In x ["A"; "X"; "B"; "Y"] <-> UnionFindMain.allServices ex_uf_config x = true) /\
  (forall x, In x ["Y"; "B"; "X"; "A"] <-> In x ["A"; "X"; "B"; "Y"]) /\
  exists groups, UnionFindMain.run ex_uf_config ["A"; "X"; "B"; "Y"] ["Y"; "B"; "X"; "A"] = Some groups /\
    (forall x, In x ["A"; "X"; "B"; "Y"] <-> exists r, amap_lookup x groups = Some r).
Proof.
  assert (H1 : forall x, In x ["A"; "X"; "B"; "Y"] <-> UnionFindMain.allServices ex_uf_config x = true).
  { intros x. unfold UnionFindMain.allServices, ex_uf_config, bmap_set, bmap_empty. simpl.
    repeat match goal with |- context [String.eqb ?a ?b] => destruct (String.eqb_spec a b) end;
      intuition congruence. }
  assert (H2 : forall x, In x ["Y"; "B"; "X"; "A"] <-> In x ["A"; "X"; "B"; "Y"]).
  { intros x. simpl. tauto. }
  split; [exact H1|split; [exact H2|]].
  destruct (UnionFindMain_run_groups ex_uf_config _ _ H1 H2) as [groups [Hr [Hk _]]].
  exists groups. split; [exact Hr|exact Hk].
Defined.

Lemma resolve_members_witness :
  resolve ex_master ex_local_skip_B = Some [ex_svc "C" []; ex_svc "A" ["B"]] /\
  In "C" (map DeployableService.ServiceName [ex_svc "C" []; ex_svc "A" ["B"]]).
Proof.
  assert (H : resolve ex_master ex_local_skip_B = Some [ex_svc "C" []; ex_svc "A" ["B"]])
    by reflexivity.
  split; [exact H|].
  apply (proj2 (resolve_members ex_master ex_local_skip_B _ H "C")).
  split; [simpl; auto|split].
  - intros o Ho. discriminate Ho.
  - right; left. apply t_trans with "B"; apply t_step; unfold edge; simpl; auto.
Defined.
